(** * grobi: the xrandr report parser and the command synthesiser

    A shallow embedding of [src/cmd/grobi/randr.go] and a verification of
    the properties its specification states about it.

    Conventions of the embedding:
    - a Go [string] is a Rocq [string], read as its sequence of bytes
      (an [ascii] is one byte); a Go [int] is a [Z];
    - a Go call that may return an error or abort with a run-time panic
      returns an [outcome]: [Ok v], [Err e] or [Panic p];
    - a [bufio.Scanner] is the text it has not consumed yet, and [Scan]
      returns the next token with the advanced scanner.  The reader behind
      a scanner is an in-memory byte sequence; the buffer of a scanner
      holds at most [bufio.MaxScanTokenSize] bytes, and [Scan] returns
      false when the full buffer holds no token;
    - a Go [map[string]struct{}] is a [gset string]; the order in which
      [range] visits a map is not fixed by the language, so it is an
      argument of the embedding ([MapRange]);
    - the functions of the Go standard library that the program calls
      ([utf8.DecodeRune], [bufio.ScanWords], [bufio.ScanLines],
      [strings.HasPrefix], [strings.Split], [strings.SplitN], [path.Match],
      [exec.Command]) are embedded from their Go sources ([path.Match] as
      of Go 1.16, which checks the whole pattern for syntax errors);
    - [verbosePrintf] only writes to the log and is left out. *)

From Stdlib Require Import ZArith Ascii String List Lia Permutation.
From stdpp Require Import gmap strings list.
From Equations Require Import Equations.

Open Scope string_scope.
Open Scope Z_scope.

(** ** Results of fallible Go calls *)

(** The error values the program creates.  Each constructor stands for one
    [errors.New] or [fmt.Errorf] call site and carries the value that the
    format string interpolates. *)
Inductive error : Type :=
| errNotModeLine                         (* errors.New("not a mode line") *)
| ErrNameNotFound (line : string)        (* "line too short, name not found: %s" *)
| ErrStateNotFound (line : string)       (* "line too short, state not found: %s" *)
| ErrUnknownState (token : string)       (* "unknown state %q" *)
| ErrModeNameNotFound (line : string)    (* "line too short, mode name not found: %s" *)
| ErrNoRefreshRate (line : string)       (* "line too short, no refresh rate found: %s" *)
| ErrFirstLine (line : string)           (* `first line should start with "Screen", found: %v` *)
| ErrEmptyRow                            (* errors.New("empty monitor row configuration") *)
| ErrBadPattern.                         (* path.ErrBadPattern *)

(** Run-time panics: the process aborts. *)
Inductive panic : Type :=
| IndexOutOfRange (index len : Z)
| LoopFuelExhausted.

Inductive outcome (A : Type) : Type :=
| Ok (a : A)
| Err (e : error)
| Panic (p : panic).
Arguments Ok {A} a.
Arguments Err {A} e.
Arguments Panic {A} p.

#[global] Instance outcome_ret : MRet outcome := fun A a => Ok a.
#[global] Instance outcome_bind : MBind outcome := fun A B f m =>
  match m with
  | Ok a => f a
  | Err e => Err e
  | Panic p => Panic p
  end.

(** The call returned to its caller, with a value or with an error. *)
Definition returns {A} (r : outcome A) : Prop :=
  match r with
  | Ok _ | Err _ => True
  | Panic _ => False
  end.

(** ** Go strings *)

Definition byte_val (c : ascii) : Z := Z.of_N (N_of_ascii c).

Definition len (s : string) : Z := Z.of_nat (String.length s).

(** [s[i]]: indexing outside [0 <= i < len(s)] panics. *)
Definition index (s : string) (i : Z) : outcome ascii :=
  if (0 <=? i) && (i <? len s) then
    match String.get (Z.to_nat i) s with
    | Some c => Ok c
    | None => Panic (IndexOutOfRange i (len s))
    end
  else Panic (IndexOutOfRange i (len s)).

(** [s[n:]] for [0 <= n <= len(s)]. *)
Fixpoint drop_bytes (n : nat) (s : string) : string :=
  match n, s with
  | O, _ => s
  | S n', String _ s' => drop_bytes n' s'
  | S _, EmptyString => EmptyString
  end.

(** [s[:n]] for [0 <= n <= len(s)]. *)
Definition take_bytes (n : nat) (s : string) : string := String.substring 0 n s.

Module utf8.

Definition RuneError : Z := 0xFFFD.

Definition maskx : Z := 0x3F.
Definition mask2 : Z := 0x1F.
Definition mask3 : Z := 0x0F.
Definition mask4 : Z := 0x07.
Definition locb : Z := 0x80.
Definition hicb : Z := 0xBF.

Definition xx : Z := 0xF1. (* invalid: size 1 *)
Definition as_ : Z := 0xF0. (* ASCII: size 1 *)
Definition s1 : Z := 0x02. (* accept 0, size 2 *)
Definition s2 : Z := 0x13. (* accept 1, size 3 *)
Definition s3 : Z := 0x03. (* accept 0, size 3 *)
Definition s4 : Z := 0x23. (* accept 2, size 3 *)
Definition s5 : Z := 0x34. (* accept 3, size 4 *)
Definition s6 : Z := 0x04. (* accept 0, size 4 *)
Definition s7 : Z := 0x44. (* accept 4, size 4 *)

(** The table [first]: information about the first byte of an encoding. *)
Definition first (b : Z) : Z :=
  if b <? 0x80 then as_
  else if b <? 0xC2 then xx
  else if b <? 0xE0 then s1
  else if b =? 0xE0 then s2
  else if b <? 0xED then s3
  else if b =? 0xED then s4
  else if b <? 0xF0 then s3
  else if b =? 0xF0 then s5
  else if b <? 0xF4 then s6
  else if b =? 0xF4 then s7
  else xx.

(** The table [acceptRanges]: the range of valid second bytes. *)
Definition acceptRanges (i : Z) : Z * Z :=
  if i =? 1 then (0xA0, hicb)
  else if i =? 2 then (locb, 0x9F)
  else if i =? 3 then (0x90, hicb)
  else if i =? 4 then (locb, 0x8F)
  else (locb, hicb).

(** [utf8.DecodeRune] (and [utf8.DecodeRuneInString]): the first rune of
    [p] and its width in bytes; [(RuneError, 0)] for the empty input and
    [(RuneError, 1)] for an invalid encoding. *)
Definition DecodeRune (p : string) : Z * nat :=
  match p with
  | EmptyString => (RuneError, 0%nat)
  | String c0 p_1 =>
    let p0 := byte_val c0 in
    let x := first p0 in
    if as_ <=? x then
      (* mask := rune(x) << 31 >> 31 is 0 for [as] and all ones for [xx] *)
      (if x =? as_ then p0 else RuneError, 1%nat)
    else
      let sz := Z.land x 7 in
      let accept := acceptRanges (Z.shiftr x 4) in
      if len p <? sz then (RuneError, 1%nat)
      else
        match p_1 with
        | EmptyString => (RuneError, 1%nat)
        | String c1 p_2 =>
          let b1 := byte_val c1 in
          if (b1 <? fst accept) || (snd accept <? b1) then (RuneError, 1%nat)
          else if sz <=? 2 then
            (Z.lor (Z.shiftl (Z.land p0 mask2) 6) (Z.land b1 maskx), 2%nat)
          else
            match p_2 with
            | EmptyString => (RuneError, 1%nat)
            | String c2 p_3 =>
              let b2 := byte_val c2 in
              if (b2 <? locb) || (hicb <? b2) then (RuneError, 1%nat)
              else if sz <=? 3 then
                (Z.lor (Z.lor (Z.shiftl (Z.land p0 mask3) 12)
                              (Z.shiftl (Z.land b1 maskx) 6))
                       (Z.land b2 maskx), 3%nat)
              else
                match p_3 with
                | EmptyString => (RuneError, 1%nat)
                | String c3 _ =>
                  let b3 := byte_val c3 in
                  if (b3 <? locb) || (hicb <? b3) then (RuneError, 1%nat)
                  else
                    (Z.lor (Z.lor (Z.lor (Z.shiftl (Z.land p0 mask4) 18)
                                         (Z.shiftl (Z.land b1 maskx) 12))
                                  (Z.shiftl (Z.land b2 maskx) 6))
                           (Z.land b3 maskx), 4%nat)
                end
            end
        end
  end.

End utf8.

Module strings.

(** [strings.HasPrefix(s, prefix)]. *)
Definition HasPrefix (s prefix : string) : bool := String.prefix prefix s.

(** [strings.IndexByte(s, c)]. *)
Fixpoint IndexByte (s : string) (c : ascii) : option nat :=
  match s with
  | EmptyString => None
  | String a s' =>
    if Ascii.eqb a c then Some 0%nat else S <$> IndexByte s' c
  end.

(** [strings.Split(s, sep)] for a separator [sep] of one byte: the pieces
    of [s] between the occurrences of [sep], one more than there are
    occurrences. *)
Fixpoint Split (s : string) (sep : ascii) : list string :=
  match s with
  | EmptyString => [EmptyString]
  | String a s' =>
    if Ascii.eqb a sep then EmptyString :: Split s' sep
    else
      match Split s' sep with
      | piece :: pieces => String a piece :: pieces
      | [] => [String a EmptyString]
      end
  end.

(** [strings.SplitN(s, sep, 2)] for a separator of one byte: [s] cut at
    the first occurrence of [sep], or [s] alone when there is none. *)
Definition SplitN2 (s : string) (sep : ascii) : list string :=
  match IndexByte s sep with
  | None => [s]
  | Some m => [take_bytes m s; drop_bytes (S m) s]
  end.

End strings.

Module bufio.

(** [isSpace]: Unicode white space, as [bufio] defines it. *)
Definition isSpace (r : Z) : bool :=
  if r <=? 0xFF then
    (r =? 0x20) || (r =? 0x09) || (r =? 0x0A) || (r =? 0x0B) || (r =? 0x0C)
    || (r =? 0x0D) || (r =? 0x85) || (r =? 0xA0)
  else if (0x2000 <=? r) && (r <=? 0x200a) then true
  else (r =? 0x1680) || (r =? 0x2028) || (r =? 0x2029) || (r =? 0x202f)
       || (r =? 0x205f) || (r =? 0x3000).

(** [MaxScanTokenSize]: the size up to which the buffer of a [Scanner]
    grows. *)
Definition MaxScanTokenSize : Z := 64 * 1024.

(** A split function maps the data in the buffer and [atEOF], whether the
    reader is at its end, to the number of bytes to advance and the token
    found, if any. *)
Definition SplitFunc : Type := string -> bool -> nat * option string.

(** First loop of [ScanWords]: [start], the offset of the first rune of
    [data] that is no space.  [fuel] bounds the iterations; every
    iteration advances by a rune of width at least one. *)
Fixpoint skipLeadingSpaces (fuel : nat) (data : string) (start : nat) : nat :=
  match fuel with
  | O => start
  | S fuel' =>
    if (start <? String.length data)%nat then
      let '(r, width) := utf8.DecodeRune (drop_bytes start data) in
      if isSpace r then skipLeadingSpaces fuel' data (start + width)%nat
      else start
    else start
  end.

(** Second loop of [ScanWords]: the offset [i] of the first space rune
    from [i] on, with its width. *)
Fixpoint scanUntilSpace (fuel : nat) (data : string) (i : nat) : option (nat * nat) :=
  match fuel with
  | O => None
  | S fuel' =>
    if (i <? String.length data)%nat then
      let '(r, width) := utf8.DecodeRune (drop_bytes i data) in
      if isSpace r then Some (i, width)
      else scanUntilSpace fuel' data (i + width)%nat
    else None
  end.

(** [bufio.ScanWords]. *)
Definition ScanWords : SplitFunc := fun data atEOF =>
  let n := String.length data in
  let start := skipLeadingSpaces n data 0 in
  match scanUntilSpace n data start with
  | Some (i, width) =>
    ((i + width)%nat, Some (String.substring start (i - start) data))
  | None =>
    (* at EOF, a final, non-empty, non-terminated word *)
    if atEOF && (start <? n)%nat then (n, Some (drop_bytes start data))
    (* request more data *)
    else (start, None)
  end.

(** [dropCR]: a line without its trailing carriage return. *)
Fixpoint dropCR (data : string) : string :=
  match data with
  | EmptyString => EmptyString
  | String c EmptyString => if Ascii.eqb c "013" then EmptyString else data
  | String c data' => String c (dropCR data')
  end.

(** [bufio.ScanLines]. *)
Definition ScanLines : SplitFunc := fun data atEOF =>
  if atEOF && (String.length data =? 0)%nat then (0%nat, None)
  else
    match strings.IndexByte data "010" with
    | Some i => (S i, Some (dropCR (take_bytes i data)))
    | None =>
      (* at EOF, a final, non-terminated line *)
      if atEOF then (String.length data, Some (dropCR data))
      (* request more data *)
      else (0%nat, None)
    end.

(** A [Scanner] on a reader that holds the bytes [unread]. *)
Record Scanner : Type := NewScanner { split : SplitFunc; unread : string }.

(** The data on which [Scan] calls the split function for the last time
    before it advances, returns a token or gives up: the buffer takes the
    unread bytes until the reader is at its end ([atEOF]) or the buffer is
    full, at [MaxScanTokenSize] bytes.  [Scan] calls the split function on
    shorter data while the buffer fills; what [ScanWords] and [ScanLines]
    find there they find in the longer data as well. *)
Definition buffered (text : string) : string * bool :=
  if len text <? MaxScanTokenSize then (text, true)
  else (take_bytes (Z.to_nat MaxScanTokenSize) text, false).

(** The loop [for] of [Scan] on the unread bytes [text]: the token and the
    bytes left, or [None] when [Scan] returns false: when the split
    function advances too far ([ErrAdvanceTooFar]), when there is no token
    at the end of the input, or when the full buffer holds no token and
    nothing to skip ([ErrTooLong]).  Every pass that goes on takes at least
    one byte, which bounds the loop. *)
Fixpoint scanLoop (fuel : nat) (split : SplitFunc) (text : string)
  : option (string * string) :=
  match fuel with
  | O => None
  | S fuel' =>
    let '(data, atEOF) := buffered text in
    let '(advance, token) := split data atEOF in
    if (String.length data <? advance)%nat then None
    else
      match token with
      | Some token => Some (token, drop_bytes advance text)
      | None =>
        (* no token: done at the end of the input; else more is read,
           unless the buffer is full already *)
        if atEOF then None
        else if (0 <? advance)%nat
             then scanLoop fuel' split (drop_bytes advance text)
             else None
      end
  end.

(** [s.Scan()] followed by [s.Text()]: the next token and the scanner
    advanced past it, or [None] when [Scan] returns false. *)
Definition Scan (s : Scanner) : option (string * Scanner) :=
  match scanLoop (S (String.length (unread s))) (split s) (unread s) with
  | Some (token, text) => Some (token, NewScanner (split s) text)
  | None => None
  end.

(** The tokens of the loop [for s.Scan() { ... s.Text() ... }], which ends
    when [Scan] returns false.  Every token takes at least one byte of the
    input, which bounds the loop. *)
Fixpoint tokens_fuel (fuel : nat) (s : Scanner) : list string :=
  match fuel with
  | O => []
  | S fuel' =>
    match Scan s with
    | Some (token, s') => token :: tokens_fuel fuel' s'
    | None => []
    end
  end.

Definition tokens (s : Scanner) : list string :=
  tokens_fuel (S (String.length (unread s))) s.

End bufio.

(** ** The model of outputs and modes *)

(** [type Mode struct] *)
Record Mode : Type := mkMode {
  Mode_Name : string;
  Mode_Default : bool;
  Mode_Active : bool
}.

(** [type Modes []Mode] *)
Definition Modes : Type := list Mode.

(** [type Output struct] *)
Record Output : Type := mkOutput {
  Output_Name : string;
  Output_Modes : Modes;
  Output_Connected : bool
}.

(** [type Outputs []Output] *)
Definition Outputs : Type := list Output.

(** The zero values [Mode{}] and [Output{}]. *)
Definition Mode_zero : Mode := mkMode "" false false.
Definition Output_zero : Output := mkOutput "" [] false.

#[global] Instance Mode_eq_dec : EqDecision Mode.
Proof. solve_decision. Defined.
#[global] Instance Output_eq_dec : EqDecision Output.
Proof. solve_decision. Defined.

(** ** The status parser *)

(** [parseOutputLine] returns the output parsed from the string. *)
Definition parseOutputLine (line : string) : outcome Output :=
  let ws := bufio.NewScanner bufio.ScanWords line in
  match bufio.Scan ws with
  | None => Err (ErrNameNotFound line)
  | Some (name, ws) =>
    match bufio.Scan ws with
    | None => Err (ErrStateNotFound line)
    | Some (state, ws) =>
      connected ←
        (if String.eqb state "connected" then Ok true
         else if String.eqb state "disconnected" then Ok false
         else Err (ErrUnknownState state));
      let output := mkOutput name [] connected in
      (* handle special case: output is disconnected, but still active *)
      if connected then Ok output
      else
        match bufio.Scan ws with
        | None => Ok output
        | Some (text, _) =>
          let arg := strings.Split text "+" in
          if negb (length arg =? 3)%nat then Ok output
          else
            let mode := hd "" arg in
            Ok (mkOutput name
                         (Output_Modes output ++ [mkMode mode false true])%list
                         connected)
        end
    end
  end.

(** [parseModeLine] returns the mode parsed from the string. *)
Definition parseModeLine (line : string) : outcome Mode :=
  if negb (strings.HasPrefix line "  ") then Err errNotModeLine
  else
    let ws := bufio.NewScanner bufio.ScanWords line in
    match bufio.Scan ws with
    | None => Err (ErrModeNameNotFound line)
    | Some (name, ws) =>
      match bufio.Scan ws with
      | None => Err (ErrNoRefreshRate line)
      | Some (rate, ws) =>
        last ← index rate (len rate - 1);
        let default := Ascii.eqb last "+" in
        before_last ← index rate (len rate - 2);
        let active := Ascii.eqb before_last "*" in
        (* handle single-word "+", which happens when a mode is default
           but not active *)
        let default :=
          match bufio.Scan ws with
          | Some (text, _) => if String.eqb text "+" then true else default
          | None => default
          end in
        Ok (mkMode name default active)
      end
    end.

Inductive ParseState : Type := StateStart | StateOutput | StateMode.

(** The variables of [RandrParse] that its loop updates. *)
Record Parser : Type := mkParser {
  state : ParseState;
  output : Output;
  outputs : Outputs
}.

(** How one pass through the [switch] of [RandrParse] ends. *)
Inductive Control : Type :=
| ContinueNextLine (p : Parser)        (* continue nextLine *)
| Continue (p : Parser)                (* continue: the inner loop again *)
| ReturnErr (e : error)                (* return nil, err *)
| Aborted (x : panic).                 (* a callee panicked *)

(** The body of the inner [for] loop of [RandrParse]: the [switch]. *)
Definition dispatch (line : string) (p : Parser) : Control :=
  match state p with
  | StateStart =>
    if strings.HasPrefix line "Screen " then
      ContinueNextLine (mkParser StateOutput (output p) (outputs p))
    else ReturnErr (ErrFirstLine line)
  | StateOutput =>
    match parseOutputLine line with
    | Ok o => ContinueNextLine (mkParser StateMode o (outputs p))
    | Err e => ReturnErr e
    | Panic x => Aborted x
    end
  | StateMode =>
    match parseModeLine line with
    | Err errNotModeLine =>
      Continue (mkParser StateOutput Output_zero (outputs p ++ [output p])%list)
    | Err e => ReturnErr e
    | Panic x => Aborted x
    | Ok mode =>
      let o := output p in
      ContinueNextLine
        (mkParser StateMode
                  (mkOutput (Output_Name o) (Output_Modes o ++ [mode])%list
                            (Output_Connected o))
                  (outputs p))
    end
  end.

(** The inner [for] loop on one line: [Ok p] when it leaves for the next
    line with the variables [p], [Err e] when it returns the error [e].
    [fuel] bounds its passes. *)
Fixpoint lineLoop (fuel : nat) (line : string) (p : Parser) : outcome Parser :=
  match fuel with
  | O => Panic LoopFuelExhausted
  | S fuel' =>
    match dispatch line p with
    | Continue p' => lineLoop fuel' line p'
    | ContinueNextLine p' => Ok p'
    | ReturnErr e => Err e
    | Aborted x => Panic x
    end
  end.

(** The outer loop [for ls.Scan()] over the lines.  Two passes of the inner
    loop are all a line can take ([lineLoop_fuel]). *)
Fixpoint linesLoop (lines : list string) (p : Parser) : outcome Parser :=
  match lines with
  | [] => Ok p
  | line :: lines' => p' ← lineLoop 2 line p; linesLoop lines' p'
  end.

(** [RandrParse] returns the list of outputs parsed from the reader. *)
Definition RandrParse (rd : string) : outcome Outputs :=
  let ls := bufio.NewScanner bufio.ScanLines rd in
  p ← linesLoop (bufio.tokens ls) (mkParser StateStart Output_zero []);
  if negb (String.eqb (Output_Name (output p)) "") then
    Ok (outputs p ++ [output p])%list
  else Ok (outputs p).

(** ** Glob matching: [path.Match] *)

Module path.

(** [scanChunk], after the leading stars: the offset of the first star
    outside a character class. *)
Fixpoint scanChunkEnd (pattern : string) (inrange : bool) : nat :=
  match pattern with
  | EmptyString => 0%nat
  | String c pattern' =>
    if Ascii.eqb c "\" then
      match pattern' with
      | EmptyString => 1%nat
      | String _ pattern'' => S (S (scanChunkEnd pattern'' inrange))
      end
    else if Ascii.eqb c "[" then S (scanChunkEnd pattern' true)
    else if Ascii.eqb c "]" then S (scanChunkEnd pattern' false)
    else if Ascii.eqb c "*" then
      if inrange then S (scanChunkEnd pattern' inrange) else 0%nat
    else S (scanChunkEnd pattern' inrange)
  end.

(** The first loop of [scanChunk]: drop the leading stars. *)
Fixpoint skipStars (pattern : string) (star : bool) : bool * string :=
  match pattern with
  | String c pattern' =>
    if Ascii.eqb c "*" then skipStars pattern' true else (star, pattern)
  | EmptyString => (star, pattern)
  end.

(** [scanChunk] gets the next segment of pattern, which is a non-star
    string possibly preceded by a star: [(star, chunk, rest)]. *)
Definition scanChunk (pattern : string) : bool * string * string :=
  let '(star, pattern) := skipStars pattern false in
  let i := scanChunkEnd pattern false in
  (star, take_bytes i pattern, drop_bytes i pattern).

(** [getEsc] gets a possibly-escaped character from chunk, for a
    character class: the rune and the chunk after it. *)
Definition getEsc (chunk : string) : outcome (Z * string) :=
  match chunk with
  | EmptyString => Err ErrBadPattern
  | String c chunk' =>
    if Ascii.eqb c "-" || Ascii.eqb c "]" then Err ErrBadPattern
    else
      let chunk := if Ascii.eqb c "\" then chunk' else chunk in
      if (String.length chunk =? 0)%nat then Err ErrBadPattern
      else
        let '(r, n) := utf8.DecodeRune chunk in
        let nchunk := drop_bytes n chunk in
        if (r =? utf8.RuneError) && (n =? 1)%nat then Err ErrBadPattern
        else if (String.length nchunk =? 0)%nat then Err ErrBadPattern
        else Ok (r, nchunk)
  end.

(** The loop of [matchChunk] that parses all ranges of a character class
    against the rune [r]: whether a range matched, and the chunk after
    the closing bracket. *)
Fixpoint parseRanges (fuel : nat) (chunk : string) (r : Z)
         (match_ : bool) (nrange : nat) : outcome (bool * string) :=
  match fuel with
  | O => Panic LoopFuelExhausted
  | S fuel' =>
    if strings.HasPrefix chunk "]" && (0 <? nrange)%nat then
      Ok (match_, drop_bytes 1 chunk)
    else
      '(lo, chunk) ← getEsc chunk;
      c0 ← index chunk 0;
      '(hi, chunk) ← (if Ascii.eqb c0 "-" then getEsc (drop_bytes 1 chunk)
                      else Ok (lo, chunk));
      let match_ := if (lo <=? r) && (r <=? hi) then true else match_ in
      parseRanges fuel' chunk r match_ (S nrange)
  end.

(** [matchChunk] checks whether chunk matches the beginning of [s]:
    [Ok (Some rest)] with the remainder of [s] when it does, [Ok None]
    when it does not.  [failed] records whether the match has failed;
    after that the loop goes on through the chunk, checking that the
    pattern is well-formed but no longer reading [s]. *)
Fixpoint matchChunkLoop (fuel : nat) (chunk s : string) (failed : bool)
  : outcome (option string) :=
  match fuel with
  | O => Panic LoopFuelExhausted
  | S fuel' =>
    match chunk with
    | EmptyString => if failed then Ok None else Ok (Some s)
    | String c chunk' =>
      let failed := if negb failed && (String.length s =? 0)%nat then true
                    else failed in
      if Ascii.eqb c "[" then
        (* character class *)
        let '(r, s) := if negb failed
                       then let '(r, n) := utf8.DecodeRune s in (r, drop_bytes n s)
                       else (0, s) in
        (* possibly negated *)
        let '(negated, chunk) :=
          if strings.HasPrefix chunk' "^" then (true, drop_bytes 1 chunk')
          else (false, chunk') in
        '(match_, chunk) ← parseRanges fuel' chunk r false 0;
        let failed := if Bool.eqb match_ negated then true else failed in
        matchChunkLoop fuel' chunk s failed
      else if Ascii.eqb c "?" then
        if negb failed then
          s0 ← index s 0;
          let failed := if Ascii.eqb s0 "/" then true else failed in
          let '(_, n) := utf8.DecodeRune s in
          matchChunkLoop fuel' chunk' (drop_bytes n s) failed
        else matchChunkLoop fuel' chunk' s failed
      else
        (* an escaped byte, or any other byte: it stands for itself *)
        chunk ← (if Ascii.eqb c "\" then
                   if (String.length chunk' =? 0)%nat then Err ErrBadPattern
                   else Ok chunk'
                 else Ok chunk);
        if negb failed then
          c0 ← index chunk 0;
          s0 ← index s 0;
          let failed := if negb (Ascii.eqb c0 s0) then true else failed in
          matchChunkLoop fuel' (drop_bytes 1 chunk) (drop_bytes 1 s) failed
        else matchChunkLoop fuel' (drop_bytes 1 chunk) s failed
    end
  end.

Definition matchChunk (chunk s : string) : outcome (option string) :=
  matchChunkLoop (S (String.length chunk)) chunk s false.

(** The last loop of [Match]: before returning false with no error,
    check that the remainder of the pattern is syntactically valid. *)
Fixpoint checkRest (fuel : nat) (pattern : string) : outcome bool :=
  match fuel with
  | O => Panic LoopFuelExhausted
  | S fuel' =>
    if (0 <? String.length pattern)%nat then
      let '(_, chunk, pattern) := scanChunk pattern in
      _ ← matchChunk chunk "";
      checkRest fuel' pattern
    else Ok false
  end.

(** The loop of [Match] that looks for a match of the chunk after a star,
    skipping [i+1] bytes of [name]; it cannot skip a slash.  [Ok (Some t)]
    is [continue Pattern] with [name = t]. *)
Fixpoint starLoop (chunk pattern name : string) : outcome (option string) :=
  match name with
  | EmptyString => Ok None
  | String c name' =>
    if Ascii.eqb c "/" then Ok None
    else
      r ← matchChunk chunk name';
      match r with
      | Some t =>
        (* if we're the last chunk, make sure we exhausted the name *)
        if (String.length pattern =? 0)%nat && (0 <? String.length t)%nat
        then starLoop chunk pattern name'
        else Ok (Some t)
      | None => starLoop chunk pattern name'
      end
  end.

(** The loop [Pattern] of [Match]. *)
Fixpoint matchLoop (fuel : nat) (pattern name : string) : outcome bool :=
  match fuel with
  | O => Panic LoopFuelExhausted
  | S fuel' =>
    if (0 <? String.length pattern)%nat then
      let '(star, chunk, pattern) := scanChunk pattern in
      if star && (String.length chunk =? 0)%nat then
        (* Trailing * matches rest of string unless it has a /. *)
        Ok (match strings.IndexByte name "/" with None => true | Some _ => false end)
      else
        (* Look for match at current position. *)
        r ← matchChunk chunk name;
        (* if we're the last chunk, make sure we've exhausted the name *)
        let here :=
          match r with
          | Some t =>
            if (String.length t =? 0)%nat || (0 <? String.length pattern)%nat
            then Some t else None
          | None => None
          end in
        match here with
        | Some t => matchLoop fuel' pattern t
        | None =>
          r ← (if star then starLoop chunk pattern name else Ok None);
          match r with
          | Some t => matchLoop fuel' pattern t
          | None => checkRest fuel' pattern
          end
        end
    else Ok (String.length name =? 0)%nat
  end.

(** [path.Match] reports whether name matches the shell pattern; the only
    error it returns is [ErrBadPattern], when pattern is malformed. *)
Definition Match (pattern name : string) : outcome bool :=
  matchLoop (S (String.length pattern)) pattern name.

End path.

(** ** Model queries *)

(** [Present] returns true iff the list of outputs contains the named
    output. *)
Fixpoint Outputs_Present (os : Outputs) (name : string) : outcome bool :=
  match os with
  | [] => Ok false
  | o :: os' =>
    match path.Match name (Output_Name o) with
    | Panic x => Panic x
    | Err _ => Ok false
    | Ok m => if m then Ok true else Outputs_Present os' name
    end
  end.

(** [Connected] returns true iff the list of outputs contains the named
    output and it is connected. *)
Fixpoint Outputs_Connected (os : Outputs) (name : string) : outcome bool :=
  match os with
  | [] => Ok false
  | o :: os' =>
    match path.Match name (Output_Name o) with
    | Panic x => Panic x
    | Err _ => Ok false
    | Ok m => if m && Output_Connected o then Ok true
              else Outputs_Connected os' name
    end
  end.

(** ** Rules and commands *)

Module exec.

(** [exec.Cmd]: the fields that [exec.Command] fills in.  [Args] holds the
    command name followed by its arguments.  The lookup of the executable
    in the directories of [PATH] depends on the file system and is not
    part of the embedding: [Path] is the name as given. *)
Record Cmd : Type := mkCmd { Path : string; Args : list string }.

(** [exec.Command(name, arg...)]. *)
Definition Command (name : string) (arg : list string) : Cmd :=
  mkCmd name (name :: arg).

End exec.

#[global] Instance Cmd_eq_dec : EqDecision exec.Cmd.
Proof. solve_decision. Defined.

(** Modelled from the spec: the declaration of [type Rule struct], which
    [BuildCommandOutputRow] takes and randr.go does not declare.  The
    fields are those of the specification's data model; the function reads
    [ConfigureSingle], [ConfigureRow], [Atomic] and [DisableOrder]. *)
Record Rule : Type := mkRule {
  Rule_Name : string;
  Rule_OutputsConnected : list string;
  Rule_OutputsDisconnected : list string;
  Rule_OutputsPresent : list string;
  Rule_OutputsAbsent : list string;
  Rule_ConfigureRow : list string;
  Rule_ConfigureSingle : string;
  Rule_Atomic : bool;
  Rule_DisableOrder : list string;
  Rule_ExecuteBefore : list string;
  Rule_ExecuteAfter : list string
}.

(** The order in which [for name := range m] visits the keys of a map: Go
    leaves it open, so it is an argument of the embedding.  All that is
    known of it is that it visits every key once. *)
Record MapRange : Type := mkMapRange {
  range_keys : gset string -> list string;
  range_keys_perm : forall m, range_keys m ≡ₚ elements m
}.

(** One possible order, by which the examples can be run. *)
Definition range_elements : MapRange :=
  mkMapRange elements (fun m => reflexivity (elements m)).

(** ** The command synthesiser *)

(** The [switch] that opens [BuildCommandOutputRow]: the outputs to
    enable. *)
Definition configuredOutputs (rule : Rule) : outcome (list string) :=
  if negb (String.eqb (Rule_ConfigureSingle rule) "") then
    Ok [Rule_ConfigureSingle rule]
  else if (0 <? length (Rule_ConfigureRow rule))%nat then
    Ok (Rule_ConfigureRow rule)
  else Err ErrEmptyRow.

(** The variables that the loop over the outputs to enable updates. *)
Record EnableState : Type := mkEnableState {
  active : gset string;
  lastOutput : string;
  enableOutputArgs : list (list string)
}.

(** The name in front of the optional ["@mode"] of a configured output. *)
Definition outputName (output : string) : string :=
  hd "" (strings.SplitN2 output "@").

(** The body of the loop [for i, output := range outputs]. *)
Definition enableBody (i : nat) (output : string) (st : EnableState) : EnableState :=
  let data := strings.SplitN2 output "@" in
  let name := hd "" data in
  let mode := if (1 <? length data)%nat then nth 1 data "" else "" in
  let args := ["--output"; name] in
  let args := if String.eqb mode "" then (args ++ ["--auto"])%list
              else (args ++ ["--mode"; mode])%list in
  let args := if (0 <? i)%nat then (args ++ ["--right-of"; lastOutput st])%list
              else args in
  mkEnableState ({[ name ]} ∪ active st) name
                (enableOutputArgs st ++ [args])%list.

Fixpoint enableLoop (i : nat) (outputs : list string) (st : EnableState) : EnableState :=
  match outputs with
  | [] => st
  | output :: outputs' => enableLoop (S i) outputs' (enableBody i output st)
  end.

(** The body of the loop [for _, output := range current]: disable
    unneeded outputs that are still active. *)
Definition disableBody (active : gset string) (disableOutputs : gset string)
           (output : Output) : gset string :=
  if negb (Output_Connected output) && (length (Output_Modes output) =? 0)%nat
  then disableOutputs
  else if bool_decide (Output_Name output ∈ active) then disableOutputs
  else {[ Output_Name output ]} ∪ disableOutputs.

(** The argument group that switches an output off. *)
Definition offArgs (name : string) : list string := ["--output"; name; "--off"].

(** The body of the loop [for _, name := range rule.DisableOrder]: honour
    disable_order if present. *)
Definition disableOrderBody (st : gset string * list (list string)) (name : string)
  : gset string * list (list string) :=
  let '(disableOutputs, disableOutputArgs) := st in
  if bool_decide (name ∈ disableOutputs) then
    (disableOutputs ∖ {[ name ]}, (disableOutputArgs ++ [offArgs name])%list)
  else st.

(** The body of the loop [for name := range disableOutputs]: collect
    remaining outputs to be disabled. *)
Definition remainingBody (disableOutputArgs : list (list string)) (name : string)
  : list (list string) :=
  (disableOutputArgs ++ [offArgs name])%list.

(** The variables after the first loop, started from the empty map
    [active], [lastOutput = ""] and no argument group. *)
Definition enableOutputs (outputs : list string) : EnableState :=
  enableLoop 0 outputs (mkEnableState ∅ "" []).

(** The set [disableOutputs] after the loop over [current]. *)
Definition disableOutputsOf (active : gset string) (current : Outputs) : gset string :=
  foldl (disableBody active) ∅ current.

(** The list [disableOutputArgs] after both of its loops. *)
Definition disableOutputArgsOf (R : MapRange) (rule : Rule)
           (disableOutputs : gset string) : list (list string) :=
  let '(disableOutputs, disableOutputArgs) :=
    foldl disableOrderBody (disableOutputs, []) (Rule_DisableOrder rule) in
  foldl remainingBody disableOutputArgs (range_keys R disableOutputs).

Definition command : string := "xrandr".

(** The last loop of [BuildCommandOutputRow]: now for each newly enabled
    output, also disable another output. *)
Equations? splitLoop (disableOutputArgs enableOutputArgs : list (list string))
           (cmds : list exec.Cmd) : list exec.Cmd
  by wf (length disableOutputArgs + length enableOutputArgs)%nat lt :=
  splitLoop [] [] cmds := cmds;
  splitLoop (disableArgs :: disableOutputArgs) [] cmds :=
    splitLoop disableOutputArgs []
              (cmds ++ [exec.Command command ([] ++ disableArgs)])%list;
  splitLoop [] (enableArgs :: enableOutputArgs) cmds :=
    splitLoop [] enableOutputArgs
              (cmds ++ [exec.Command command ([] ++ enableArgs)])%list;
  splitLoop (disableArgs :: disableOutputArgs) (enableArgs :: enableOutputArgs) cmds :=
    splitLoop disableOutputArgs enableOutputArgs
              (cmds ++ [exec.Command command (([] ++ disableArgs) ++ enableArgs)])%list.
Proof. all: simpl; lia. Qed.

(** [BuildCommandOutputRow] returns a sequence of calls to [xrandr] to
    configure all named outputs in a row, left to right, given the
    currently active Outputs and a list of output names, optionally
    followed by "@" and the desired mode, e.g. LVDS1@1377x768. *)
Definition BuildCommandOutputRow (R : MapRange) (rule : Rule) (current : Outputs)
  : outcome (list exec.Cmd) :=
  outputs ← configuredOutputs rule;
  let st := enableOutputs outputs in
  let enableOutputArgs := enableOutputArgs st in
  let disableOutputs := disableOutputsOf (active st) current in
  let disableOutputArgs := disableOutputArgsOf R rule disableOutputs in
  (* enable/disable all monitors in one call to xrandr *)
  if Rule_Atomic rule then
    let args := foldl (fun args disableArgs => args ++ disableArgs)%list
                      [] disableOutputArgs in
    let args := foldl (fun args enableArgs => args ++ enableArgs)%list
                      args enableOutputArgs in
    Ok [exec.Command command args]
  else
    (* otherwise return several calls to xrandr *)
    let cmds := [] in
    (* disable an output *)
    let '(cmds, disableOutputArgs) :=
      match disableOutputArgs with
      | first :: rest => ((cmds ++ [exec.Command command first])%list, rest)
      | [] => (cmds, disableOutputArgs)
      end in
    Ok (splitLoop disableOutputArgs enableOutputArgs cmds).

(** ** The inputs of the specification's examples *)

Definition LF : string := String "010" EmptyString.

(** The report
    ["Screen 0\nHDMI1 connected 1920x1080+0+0\n  1920x1080 60.00+*\nVGA1 disconnected\n"]. *)
Definition example_report : string :=
  "Screen 0" ++ LF ++ "HDMI1 connected 1920x1080+0+0" ++ LF
  ++ "  1920x1080 60.00+*" ++ LF ++ "VGA1 disconnected" ++ LF.

(** The same report with the markers as [xrandr] prints them: the star of
    the active mode before the plus of the preferred one. *)
Definition example_report_star_plus : string :=
  "Screen 0" ++ LF ++ "HDMI1 connected 1920x1080+0+0" ++ LF
  ++ "  1920x1080 60.00*+" ++ LF ++ "VGA1 disconnected" ++ LF.

(** A rule that sets nothing but its layout, its atomicity and its disable
    order. *)
Definition layoutRule (single : string) (row : list string) (atomic : bool)
           (disableOrder : list string) : Rule :=
  mkRule "" [] [] [] [] row single atomic disableOrder [] [].

(** The rule [{ConfigureRow:["LVDS1","VGA1@1024x768"], Atomic:false}]. *)
Definition example_rule : Rule :=
  layoutRule "" ["LVDS1"; "VGA1@1024x768"] false [].

(** The current outputs [HDMI2] (connected) and [LVDS1] (disconnected, no
    modes). *)
Definition example_current : Outputs :=
  [mkOutput "HDMI2" [] true; mkOutput "LVDS1" [] false].

(** [rule] with [ConfigureRow] replaced. *)
Definition withConfigureRow (rule : Rule) (row : list string) : Rule :=
  mkRule (Rule_Name rule) (Rule_OutputsConnected rule)
         (Rule_OutputsDisconnected rule) (Rule_OutputsPresent rule)
         (Rule_OutputsAbsent rule) row (Rule_ConfigureSingle rule)
         (Rule_Atomic rule) (Rule_DisableOrder rule)
         (Rule_ExecuteBefore rule) (Rule_ExecuteAfter rule).

(** The names of [order] in the order of their first mention. *)
Fixpoint firstMentions (order : list string) : list string :=
  match order with
  | [] => []
  | name :: order' => name :: filter (fun n => n ≠ name) (firstMentions order')
  end.

(** An output carries an active mode. *)
Definition hasActiveMode (o : Output) : Prop :=
  exists m, m ∈ Output_Modes o /\ Mode_Active m = true.

(** A name receives a disable argument group. *)
Definition receivesDisableGroup (R : MapRange) (rule : Rule) (current : Outputs)
           (outputs : list string) (name : string) : Prop :=
  offArgs name
  ∈ disableOutputArgsOf R rule
      (disableOutputsOf (active (enableOutputs outputs)) current).

(** An output is a target of the rule that configures [outputs]. *)
Definition isTarget (outputs : list string) (name : string) : Prop :=
  name ∈ outputName <$> outputs.

(** A report in which a disconnected output still lists a mode that is not
    in use, and the output it describes. *)
Definition stale_report : string :=
  "Screen 0" ++ LF ++ "VGA1 disconnected" ++ LF ++ "  1024x768 60.00" ++ LF.

Definition stale_output : Output :=
  mkOutput "VGA1" [mkMode "1024x768" false false] false.

(** A rule that configures LVDS1 alone. *)
Definition single_rule : Rule := layoutRule "LVDS1" [] false [].

(** An atomic rule with a disable order, and outputs for it to disable. *)
Definition ordered_rule : Rule :=
  layoutRule "" ["LVDS1"; "VGA1@1024x768"] true ["DP2"; "HDMI2"; "DP2"].

Definition ordered_current : Outputs :=
  [mkOutput "HDMI2" [] true; mkOutput "LVDS1" [] true;
   mkOutput "DP1" [mkMode "1920x1080" false true] false;
   mkOutput "DP2" [] true].

(** An atomic rule with neither [ConfigureSingle] nor [ConfigureRow]. *)
Definition bare_atomic_rule : Rule := layoutRule "" [] true [].

(** A rule with both [ConfigureSingle] and [ConfigureRow] populated. *)
Definition both_rule : Rule := layoutRule "LVDS1" ["HDMI2"; "HDMI3"] false [].

(** The condition for a disable group as the specification words it: the
    output is no target, and is connected or is disconnected but still
    carries an active mode. *)
Definition wordedDisableCondition (outputs : list string) (o : Output) : Prop :=
  ~ isTarget outputs (Output_Name o)
  /\ (Output_Connected o = true
      \/ (Output_Connected o = false /\ hasActiveMode o)).

(** The condition with any mode in place of an active one. *)
Definition disableCondition (outputs : list string) (o : Output) : Prop :=
  ~ isTarget outputs (Output_Name o)
  /\ (Output_Connected o = true
      \/ (Output_Connected o = false /\ Output_Modes o <> [])).

(** An output is disabled when it is connected or still has modes, and is
    not enabled by the rule. *)
Definition toDisable (active : gset string) (o : Output) : Prop :=
  (Output_Connected o = true \/ Output_Modes o <> []) /\ Output_Name o ∉ active.

#[global] Instance offArgs_inj : Inj (=) (=) offArgs.
Proof. intros a b H. by injection H. Qed.

(** A pattern is malformed when [path.Match] reports [ErrBadPattern] for
    it. *)
Definition malformed (pattern : string) : Prop :=
  exists name, path.Match pattern name = Err ErrBadPattern.

(** How a call ended, whatever it returned. *)
Definition status {A} (r : outcome A) : outcome unit :=
  match r with
  | Ok _ => Ok ()
  | Err e => Err e
  | Panic x => Panic x
  end.

(** The chunk that [path.parseRanges] leaves. *)
Definition restOfRanges (r : outcome (bool * string)) : outcome string :=
  match r with
  | Ok (_, chunk) => Ok chunk
  | Err e => Err e
  | Panic x => Panic x
  end.

(** Outputs for the queries. *)
Definition query_outputs : Outputs :=
  [mkOutput "DP2-2" [] true; mkOutput "LVDS1" [] true; mkOutput "VGA1" [] false].

(** ** Equality of outputs *)

(** [l[i]] on a slice: indexing outside [0 <= i < len(l)] panics. *)
Definition at_index {A} (l : list A) (i : nat) : outcome A :=
  match l !! i with
  | Some x => Ok x
  | None => Panic (IndexOutOfRange (Z.of_nat i) (Z.of_nat (length l)))
  end.

(** [m1 == m2] on two [Mode] structs: the comparison of their fields. *)
Definition Mode_eqb (m1 m2 : Mode) : bool :=
  String.eqb (Mode_Name m1) (Mode_Name m2)
  && Bool.eqb (Mode_Default m1) (Mode_Default m2)
  && Bool.eqb (Mode_Active m1) (Mode_Active m2).

(** The loop [for i := range o.Modes] of [Output.Equals], from index [i]
    with [n] indices to go. *)
Fixpoint Output_Equals_loop (n i : nat) (modes other : Modes) : outcome bool :=
  match n with
  | O => Ok true
  | S n' =>
    m1 ← at_index modes i;
    m2 ← at_index other i;
    if negb (Mode_eqb m1 m2) then Ok false
    else Output_Equals_loop n' (S i) modes other
  end.

(** [Output.Equals] checks whether the two Outputs are equal. *)
Definition Output_Equals (o other : Output) : outcome bool :=
  if negb (String.eqb (Output_Name o) (Output_Name other))
     || negb (Bool.eqb (Output_Connected o) (Output_Connected other))
  then Ok false
  else if negb (length (Output_Modes o) =? length (Output_Modes other))%nat
  then Ok false
  else Output_Equals_loop (length (Output_Modes o)) 0
                          (Output_Modes o) (Output_Modes other).

(** The loop [for i := range os] of [Outputs.Equals]. *)
Fixpoint Outputs_Equals_loop (n i : nat) (os other : Outputs) : outcome bool :=
  match n with
  | O => Ok true
  | S n' =>
    out1 ← at_index os i;
    out2 ← at_index other i;
    eq ← Output_Equals out1 out2;
    if negb eq then Ok false
    else Outputs_Equals_loop n' (S i) os other
  end.

(** [Outputs.Equals] checks whether the two Outputs are equal. *)
Definition Outputs_Equals (os other : Outputs) : outcome bool :=
  if negb (length os =? length other)%nat then Ok false
  else Outputs_Equals_loop (length os) 0 os other.

(** ** Classes of bytes and of strings *)

(** Every byte of [s] satisfies [P]. *)
Fixpoint allBytes (P : ascii -> bool) (s : string) : bool :=
  match s with
  | EmptyString => true
  | String c s' => P c && allBytes P s'
  end.

(** A byte with no meaning of its own in a glob pattern. *)
Definition plainByte (c : ascii) : bool :=
  negb (Ascii.eqb c "*" || Ascii.eqb c "?" || Ascii.eqb c "[" || Ascii.eqb c "\").

(** A pattern without metacharacters: a plain name. *)
Definition isPlain (pattern : string) : bool := allBytes plainByte pattern.

(** ** Reports as blocks of lines *)

(** The lines of a report: the screen line, then for every output its line
    and the lines of its modes. *)
Definition reportLines (screen : string) (blocks : list (string * list string))
  : list string :=
  screen :: concat ((fun b => b.1 :: b.2) <$> blocks).

(** The end of [RandrParse]: the output in progress is added if it has a
    name. *)
Definition finish (p : Parser) : Outputs :=
  if negb (String.eqb (Output_Name (output p)) "") then
    (outputs p ++ [output p])%list
  else outputs p.

(** [o] with the modes [ms] added. *)
Definition withModes (o : Output) (ms : Modes) : Output :=
  mkOutput (Output_Name o) (Output_Modes o ++ ms)%list (Output_Connected o).

(** The words of a line. *)
Definition words (line : string) : bufio.Scanner :=
  bufio.NewScanner bufio.ScanWords line.

(** A report with a mode line whose second word is one byte long. *)
Definition short_rate_report : string :=
  "Screen 0" ++ LF ++ "VGA1 connected" ++ LF ++ "  1024x768 +" ++ LF.

(** What the loop of [RandrParse] keeps true between two lines: the outputs
    gathered so far have names, and so has the output in progress once a
    line has described it. *)
Definition namesKept (p : Parser) : Prop :=
  Forall (fun o => Output_Name o <> "") (outputs p)
  /\ (state p = StateMode -> Output_Name (output p) <> "").

(** The blocks of [example_report_star_plus]. *)
Definition example_blocks : list (string * list string) :=
  [("HDMI1 connected 1920x1080+0+0", ["  1920x1080 60.00*+"]);
   ("VGA1 disconnected", [])].

(** ** Words of a line *)

(** An ASCII byte that [bufio.isSpace] takes for white space, and one that
    it does not. *)
Definition blankByte (c : ascii) : bool :=
  (byte_val c <? 0x80) && bufio.isSpace (byte_val c).

Definition wordByte (c : ascii) : bool :=
  (byte_val c <? 0x80) && negb (bufio.isSpace (byte_val c)).

(** A run of ASCII white space, and a word of ASCII bytes. *)
Definition isBlanks (s : string) : bool := allBytes blankByte s.

Definition isWord (w : string) : bool :=
  negb (String.eqb w "") && allBytes wordByte w.

(** The text is at its end or goes on with white space. *)
Definition startsBlank (tail : string) : bool :=
  match tail with
  | EmptyString => true
  | String c _ => blankByte c
  end.

(** The last byte of [s], and the byte before it. *)
Definition lastByte (s : string) : option ascii :=
  String.get (String.length s - 1) s.

Definition byteBeforeLast (s : string) : option ascii :=
  String.get (String.length s - 2) s.

(** The next word of the text that follows a word, if there is one. *)
Definition nextWord (tail : string) : option string :=
  fst <$> bufio.Scan (words (drop_bytes 1 tail)).

(** The mode that [parseOutputLine] reads from the word after the state of
    a disconnected output. *)
Definition geometryModes (word : option string) : Modes :=
  match word with
  | Some text =>
    if (length (strings.Split text "+") =? 3)%nat
    then [mkMode (hd "" (strings.Split text "+")) false true]
    else []
  | None => []
  end.

(** ** Enable groups *)

(** The mode behind the ["@"] of a configured output, or [""]. *)
Definition outputMode (output : string) : string :=
  let data := strings.SplitN2 output "@" in
  if (1 <? length data)%nat then nth 1 data "" else "".

(** The arguments that choose the mode of an output. *)
Definition modeArgs (output : string) : list string :=
  if String.eqb (outputMode output) "" then ["--auto"]
  else ["--mode"; outputMode output].

(** The arguments that place an output to the right of the one before. *)
Definition rightOfArgs (previous : option string) : list string :=
  match previous with
  | Some p => ["--right-of"; outputName p]
  | None => []
  end.

(** The enable groups of the outputs from index [i] on, when [last] is the
    name of the output before them. *)
Fixpoint enableGroups (i : nat) (last : string) (outputs : list string)
  : list (list string) :=
  match outputs with
  | [] => []
  | o :: outputs' =>
    (["--output"; outputName o] ++ modeArgs o
     ++ (if (0 <? i)%nat then ["--right-of"; last] else []))%list
    :: enableGroups (S i) (outputName o) outputs'
  end.

(** Another possible order of map iteration: the keys from last to first. *)
Definition range_reversed : MapRange :=
  mkMapRange (fun m => reverse (elements m))
             (fun m => reverse_Permutation (elements m)).

(** ** Printing a mode *)

(** [Mode.String]: the name, then "*" for an active mode, then "+" for a
    default one. *)
Definition Mode_String (m : Mode) : string :=
  let suffix := "" in
  let suffix := if Mode_Active m then suffix ++ "*" else suffix in
  let suffix := if Mode_Default m then suffix ++ "+" else suffix in
  Mode_Name m ++ suffix.

(** The text ends in one of the marks that [Mode.String] appends. *)
Definition endsInMark (s : string) : bool :=
  match lastByte s with
  | Some c => Ascii.eqb c "*" || Ascii.eqb c "+"
  | None => false
  end.

(** * Verification *)

Close Scope Z_scope.
#[local] Set Warnings "-clear-no-such-hyp".

(** ** The parser *)

(** Two passes of the inner loop of [RandrParse] are all a line takes: more
    fuel changes nothing. *)
Lemma lineLoop_fuel (n : nat) (line : string) (p : Parser) :
  lineLoop (2 + n) line p = lineLoop 2 line p.
Proof.
  cbn [lineLoop Nat.add].
  destruct (dispatch line p) as [p1|p1|e|x] eqn:Hd; try reflexivity.
  assert (Hs : state p1 = StateOutput).
  { unfold dispatch in Hd. destruct (state p).
    - destruct (strings.HasPrefix line "Screen "); discriminate.
    - destruct (parseOutputLine line); discriminate.
    - destruct (parseModeLine line) as [m|[]|x']; try discriminate.
      injection Hd as <-. reflexivity. }
  assert (Hnc : forall p2, dispatch line p1 <> Continue p2).
  { intros p2. unfold dispatch. rewrite Hs.
    destruct (parseOutputLine line); discriminate. }
  destruct (dispatch line p1) as [p2|p2|e|x] eqn:Hd1; try reflexivity.
  exfalso. exact (Hnc p2 eq_refl).
Qed.

(** ** Lines of a report *)

Lemma drop_bytes_length (n : nat) :
  forall s, String.length (drop_bytes n s) = (String.length s - n)%nat.
Proof. induction n as [|n IH]; intros [|c s]; simpl; auto. Qed.

(** The data in the buffer is a part of the unread bytes, and all of them
    at the end of the input. *)
Lemma length_take_bytes (n : nat) (s : string) :
  (String.length (take_bytes n s) <= String.length s)%nat.
Proof.
  unfold take_bytes. revert s.
  induction n as [|n IH]; intros [|c s]; simpl; try lia.
  specialize (IH s). lia.
Qed.

Lemma buffered_length (text data : string) (atEOF : bool) :
  bufio.buffered text = (data, atEOF) ->
  (String.length data <= String.length text)%nat.
Proof.
  unfold bufio.buffered.
  destruct (len text <? bufio.MaxScanTokenSize)%Z; intros [= <- <-]; [lia|].
  apply length_take_bytes.
Qed.

Lemma buffered_short (text : string) :
  (len text < bufio.MaxScanTokenSize)%Z -> bufio.buffered text = (text, true).
Proof. intros H%Z.ltb_lt. unfold bufio.buffered. by rewrite H. Qed.

(** A token that [Scan] returns is one that the split function finds in
    the buffer, after the bytes that earlier passes of the loop skipped. *)
Lemma scanLoop_token (split : bufio.SplitFunc) (fuel : nat) :
  forall text token text',
    bufio.scanLoop fuel split text = Some (token, text') ->
    exists text0 data atEOF advance,
      (String.length text0 <= String.length text)%nat
      /\ bufio.buffered text0 = (data, atEOF)
      /\ split data atEOF = (advance, Some token)
      /\ (advance <= String.length data)%nat
      /\ text' = drop_bytes advance text0.
Proof.
  induction fuel as [|fuel IH]; intros text token text'; cbn [bufio.scanLoop]; [done|].
  destruct (bufio.buffered text) as [data atEOF] eqn:Hbuf.
  destruct (split data atEOF) as [advance tok] eqn:Hsplit.
  destruct (String.length data <? advance)%nat eqn:Hadv; [done|].
  apply Nat.ltb_ge in Hadv.
  destruct tok as [tok|].
  - intros [= <- <-]. by exists text, data, atEOF, advance.
  - destruct atEOF; [done|]. destruct (0 <? advance)%nat; [|done].
    intros (text0 & data0 & atEOF0 & advance0 & Hlen & H)%IH.
    exists text0, data0, atEOF0, advance0. split; [|done].
    rewrite drop_bytes_length in Hlen. lia.
Qed.

(** The loop of [Scan] has fuel enough: more fuel gives the same result. *)
Lemma scanLoop_fuel (split : bufio.SplitFunc) (fuel : nat) :
  forall (text : string) (n : nat),
    (String.length text < fuel)%nat ->
    bufio.scanLoop (fuel + n) split text = bufio.scanLoop fuel split text.
Proof.
  induction fuel as [|fuel IH]; intros text n Hlen; [lia|].
  cbn [bufio.scanLoop Nat.add].
  destruct (bufio.buffered text) as [data atEOF] eqn:Hbuf.
  apply buffered_length in Hbuf.
  destruct (split data atEOF) as [advance tok].
  destruct (String.length data <? advance)%nat eqn:Hadv; [done|].
  apply Nat.ltb_ge in Hadv.
  destruct tok as [tok|]; [done|]. destruct atEOF; [done|].
  destruct (0 <? advance)%nat eqn:Hpos; [|done]. apply Nat.ltb_lt in Hpos.
  apply IH. rewrite drop_bytes_length. lia.
Qed.

Lemma ScanLines_advance (data : string) (atEOF : bool) (advance : nat)
      (token : string) :
  bufio.ScanLines data atEOF = (advance, Some token) -> (0 < advance)%nat.
Proof.
  unfold bufio.ScanLines.
  destruct (atEOF && (String.length data =? 0)%nat) eqn:Hlen; [done|].
  destruct (strings.IndexByte data "010") as [i|]; [intros [= <- _]; lia|].
  destruct atEOF; [|done]. cbn [andb] in Hlen. apply Nat.eqb_neq in Hlen.
  intros [= <- _]. lia.
Qed.

(** Every line that [Scan] returns takes at least one byte of the input. *)
Lemma Scan_lines_shrinks (s s' : bufio.Scanner) (token : string) :
  bufio.split s = bufio.ScanLines ->
  bufio.Scan s = Some (token, s') ->
  (String.length (bufio.unread s') < String.length (bufio.unread s))%nat
  /\ bufio.split s' = bufio.ScanLines.
Proof.
  intros Hsplit. unfold bufio.Scan. rewrite Hsplit.
  destruct (bufio.scanLoop _ _ _) as [[tok text]|] eqn:Hloop; [|done].
  intros [= <- <-]. cbn [bufio.unread bufio.split]. split; [|done].
  apply scanLoop_token in Hloop
    as (text0 & data & atEOF & advance & Hlen & Hbuf & Hline & Hadv & ->).
  apply buffered_length in Hbuf. apply ScanLines_advance in Hline.
  rewrite drop_bytes_length. lia.
Qed.

(** The fuel of [bufio.tokens] is enough to read all lines: more fuel gives
    the same lines. *)
Lemma tokens_fuel_lines (fuel : nat) :
  forall (s : bufio.Scanner) (n : nat),
    bufio.split s = bufio.ScanLines ->
    (String.length (bufio.unread s) < fuel)%nat ->
    bufio.tokens_fuel (fuel + n) s = bufio.tokens_fuel fuel s.
Proof.
  induction fuel as [|fuel IH]; intros s n Hsplit Hlen; [lia|].
  cbn [bufio.tokens_fuel Nat.add].
  destruct (bufio.Scan s) as [[token s']|] eqn:Hscan; [|done].
  apply Scan_lines_shrinks in Hscan as [Hshrink Hsplit']; [|done].
  f_equal. apply IH; [done|lia].
Qed.

(** ** Tokens of a line *)

Lemma DecodeRune_width (p : string) :
  p <> "" -> (1 <= snd (utf8.DecodeRune p))%nat.
Proof.
  destruct p as [|c0 p1]; [done|]. intros _. unfold utf8.DecodeRune.
  repeat case_match; simpl; lia.
Qed.

Lemma drop_bytes_nonempty (n : nat) (s : string) :
  (n < String.length s)%nat -> drop_bytes n s <> "".
Proof.
  revert s. induction n as [|n IH]; intros [|c s]; simpl; try lia; [done|].
  intros H. apply IH. lia.
Qed.

Lemma substring_nonempty (n k : nat) (s : string) :
  (n < String.length s)%nat -> String.substring n (S k) s <> "".
Proof.
  revert s. induction n as [|n IH]; intros [|c s]; simpl; try lia; [done|].
  intros H. apply IH. lia.
Qed.

(** The first loop of [ScanWords] stops at the end of the data or at a rune
    that is no space. *)
Lemma skipLeadingSpaces_spec (fuel : nat) :
  forall (data : string) (start : nat),
    (String.length data - start <= fuel)%nat ->
    let start' := bufio.skipLeadingSpaces fuel data start in
    (start' < String.length data)%nat ->
    bufio.isSpace (fst (utf8.DecodeRune (drop_bytes start' data))) = false.
Proof.
  induction fuel as [|fuel IH]; intros data start Hfuel; simpl.
  - lia.
  - destruct (start <? String.length data)%nat eqn:Hlt; [|by rewrite Nat.ltb_ge in Hlt; lia].
    apply Nat.ltb_lt in Hlt.
    pose proof (DecodeRune_width _ (drop_bytes_nonempty _ _ Hlt)) as Hw.
    destruct (utf8.DecodeRune (drop_bytes start data)) as [r width] eqn:Hdec.
    simpl in Hw. destruct (bufio.isSpace r) eqn:Hsp.
    + apply IH. lia.
    + intros _. by rewrite Hdec.
Qed.

(** The second loop of [ScanWords] stops at a space rune. *)
Lemma scanUntilSpace_spec (fuel : nat) :
  forall (data : string) (i j width : nat),
    bufio.scanUntilSpace fuel data i = Some (j, width) ->
    (i <= j < String.length data)%nat
    /\ bufio.isSpace (fst (utf8.DecodeRune (drop_bytes j data))) = true.
Proof.
  induction fuel as [|fuel IH]; intros data i j width; simpl; [done|].
  destruct (i <? String.length data)%nat eqn:Hlt; [|done].
  apply Nat.ltb_lt in Hlt.
  destruct (utf8.DecodeRune (drop_bytes i data)) as [r w] eqn:Hdec.
  destruct (bufio.isSpace r) eqn:Hsp.
  - intros [= <- <-]. rewrite Hdec. split; [lia|done].
  - intros H. apply IH in H as [H1 H2]. split; [lia|done].
Qed.

(** A word is never empty. *)
Lemma ScanWords_nonempty (data : string) (atEOF : bool) (advance : nat)
      (token : string) :
  bufio.ScanWords data atEOF = (advance, Some token) -> token <> "".
Proof.
  unfold bufio.ScanWords.
  pose proof (skipLeadingSpaces_spec (String.length data) data 0) as Hskip.
  cbv zeta in Hskip.
  set (start := bufio.skipLeadingSpaces (String.length data) data 0) in *.
  destruct (bufio.scanUntilSpace (String.length data) data start)
    as [[i width]|] eqn:Hscan.
  - apply scanUntilSpace_spec in Hscan as [Hi Hsp]. intros [= _ <-].
    assert (i <> start) by (intros ->; rewrite Hskip in Hsp; [done|lia|lia]).
    replace (i - start)%nat with (S (i - start - 1)) by lia.
    apply substring_nonempty. lia.
  - destruct atEOF; cbn [andb]; [|done].
    destruct (start <? String.length data)%nat eqn:Hlt; [|done].
    apply Nat.ltb_lt in Hlt. intros [= _ <-]. by apply drop_bytes_nonempty.
Qed.

Lemma Scan_words_nonempty (s s' : bufio.Scanner) (token : string) :
  bufio.split s = bufio.ScanWords ->
  bufio.Scan s = Some (token, s') ->
  token <> "" /\ bufio.split s' = bufio.ScanWords.
Proof.
  intros Hsplit. unfold bufio.Scan. rewrite Hsplit.
  destruct (bufio.scanLoop _ _ _) as [[tok text]|] eqn:Hloop; [|done].
  intros [= <- <-]. split; [|done].
  apply scanLoop_token in Hloop
    as (text0 & data & atEOF & advance & _ & _ & Hw & _).
  by eapply ScanWords_nonempty.
Qed.

Lemma get_in_range (s : string) :
  forall n, (n < String.length s)%nat -> exists c, String.get n s = Some c.
Proof.
  induction s as [|a s IH]; intros [|n]; simpl; try lia; eauto.
  intros H. apply IH. lia.
Qed.

Lemma index_in_range (s : string) (i : Z) :
  (0 <= i < len s)%Z -> exists c, index s i = Ok c.
Proof.
  intros Hi. unfold index.
  replace ((0 <=? i)%Z && (i <? len s)%Z) with true
    by (symmetry; apply andb_true_intro; split; [apply Z.leb_le|apply Z.ltb_lt]; lia).
  destruct (get_in_range s (Z.to_nat i)) as [c ->]; [unfold len in Hi; lia|].
  eauto.
Qed.

(** [parseModeLine] returns to its caller, with a mode or an error, on every
    line but those whose second token is one byte long. *)
Lemma parseModeLine_returns (line : string) :
  returns (parseModeLine line)
  \/ exists name ws rate ws',
      bufio.Scan (bufio.NewScanner bufio.ScanWords line) = Some (name, ws)
      /\ bufio.Scan ws = Some (rate, ws')
      /\ String.length rate = 1%nat.
Proof.
  unfold parseModeLine.
  destruct (negb (strings.HasPrefix line "  ")); [by left|].
  destruct (bufio.Scan (bufio.NewScanner bufio.ScanWords line))
    as [[name ws]|] eqn:Hname; [|by left].
  apply Scan_words_nonempty in Hname as Hws; [|done]. destruct Hws as [_ Hws].
  destruct (bufio.Scan ws) as [[rate ws']|] eqn:Hrate; [|by left].
  apply Scan_words_nonempty in Hrate as Hne; [|done]. destruct Hne as [Hne _].
  destruct (decide (String.length rate = 1%nat)) as [Hone|Hlen].
  { right. by exists name, ws, rate, ws'. }
  left.
  assert (2 <= String.length rate)%nat by (destruct rate as [|? [|? ?]]; simpl in *; done || lia).
  destruct (index_in_range rate (len rate - 1)) as [c1 ->]; [unfold len; lia|].
  destruct (index_in_range rate (len rate - 2)) as [c2 ->]; [unfold len; lia|].
  done.
Qed.

(** C1, as the specification's example puts it, fails: the single mode of
    HDMI1 is neither default nor active. *)
Lemma C1_example_flags_refuted :
  RandrParse example_report
  <> Ok [mkOutput "HDMI1" [mkMode "1920x1080" true true] true;
         mkOutput "VGA1" [] false].
Proof. vm_compute. discriminate. Qed.

(** C1 (amended): parsing the example report yields exactly two outputs,
    HDMI1 with Connected=true and the single mode 1920x1080 with
    Default=false and Active=false (the token "60.00+*" ends in a star and
    has the plus second to last), followed by VGA1 with Connected=false and
    no modes. *)
Theorem C1_example_report_parsed :
  RandrParse example_report
  = Ok [mkOutput "HDMI1" [mkMode "1920x1080" false false] true;
        mkOutput "VGA1" [] false].
Proof. vm_compute. reflexivity. Qed.

(** With the markers in the order "*+" the mode is default and active. *)
Lemma example_report_star_plus_parsed :
  RandrParse example_report_star_plus
  = Ok [mkOutput "HDMI1" [mkMode "1920x1080" true true] true;
        mkOutput "VGA1" [] false].
Proof. vm_compute. reflexivity. Qed.

(** C3: on a two-space-indented line whose second token has length one,
    [parseModeLine] indexes the token at -1 and the process aborts; so does
    [RandrParse] on a report with such a line. *)
Theorem C3_short_rate_token_aborts :
  parseModeLine "  1024x768 +" = Panic (IndexOutOfRange (-1) 1)
  /\ RandrParse ("Screen 0" ++ LF ++ "VGA1 connected" ++ LF ++ "  1024x768 +" ++ LF)
     = Panic (IndexOutOfRange (-1) 1).
Proof. split; vm_compute; reflexivity. Qed.

(** A first line that does not start with "Screen " is an error. *)
Lemma RandrParse_first_line (rd line : string) (lines : list string) :
  bufio.tokens (bufio.NewScanner bufio.ScanLines rd) = line :: lines ->
  strings.HasPrefix line "Screen " = false ->
  RandrParse rd = Err (ErrFirstLine line).
Proof.
  intros Htokens Hprefix. unfold RandrParse. rewrite Htokens.
  cbn [linesLoop lineLoop dispatch state]. by rewrite Hprefix.
Qed.

(** C9: the empty input parses to the empty sequence of outputs, with no
    error; once there is a line, even an empty one, a first line that does
    not start with "Screen " is an error. *)
Theorem C9_empty_input :
  RandrParse "" = Ok []
  /\ RandrParse LF = Err (ErrFirstLine "")
  /\ RandrParse "HDMI1 connected" = Err (ErrFirstLine "HDMI1 connected").
Proof. repeat split; vm_compute; reflexivity. Qed.

(** ** The command synthesiser *)

Lemma foldl_append_concat (l : list (list string)) (init : list string) :
  foldl (fun args group => args ++ group)%list init l = (init ++ concat l)%list.
Proof.
  revert init. induction l as [|g l IH]; intros init; simpl.
  - by rewrite app_nil_r.
  - by rewrite IH, app_assoc.
Qed.

Lemma enableLoop_length (outputs : list string) :
  forall i st,
    length (enableOutputArgs (enableLoop i outputs st))
    = (length (enableOutputArgs st) + length outputs)%nat.
Proof.
  induction outputs as [|o outputs IH]; intros i st; simpl.
  - lia.
  - rewrite IH. unfold enableBody; simpl. rewrite length_app; simpl. lia.
Qed.

Lemma enableLoop_active (outputs : list string) :
  forall i st,
    active (enableLoop i outputs st)
    = active st ∪ list_to_set (outputName <$> outputs).
Proof.
  induction outputs as [|o outputs IH]; intros i st; simpl.
  - set_solver.
  - rewrite IH. unfold enableBody, outputName; simpl. set_solver.
Qed.

(** The targets of a rule: the names of its configured outputs. *)
Lemma enableOutputs_active (outputs : list string) (name : string) :
  name ∈ active (enableOutputs outputs) <-> name ∈ outputName <$> outputs.
Proof. unfold enableOutputs. rewrite enableLoop_active. set_solver. Qed.

Lemma enableOutputs_length (outputs : list string) :
  length (enableOutputArgs (enableOutputs outputs)) = length outputs.
Proof. unfold enableOutputs. by rewrite enableLoop_length. Qed.

Lemma disableBody_elem (act D : gset string) (o : Output) (name : string) :
  name ∈ disableBody act D o
  <-> name ∈ D \/ (Output_Name o = name /\ toDisable act o).
Proof.
  unfold disableBody, toDisable.
  destruct (Output_Connected o), (Output_Modes o) as [|m ms]; simpl;
    try case_bool_decide; set_solver.
Qed.

Lemma foldl_disableBody_elem (act : gset string) (current : Outputs) :
  forall (D : gset string) (name : string),
    name ∈ foldl (disableBody act) D current
    <-> name ∈ D \/ exists o, o ∈ current /\ Output_Name o = name /\ toDisable act o.
Proof.
  induction current as [|o current IH]; intros D name; simpl.
  - set_solver.
  - rewrite IH, disableBody_elem. split.
    + intros [[H|[H1 H2]]|(o' & H1 & H2)]; [by left|right..].
      * exists o. set_solver.
      * exists o'. set_solver.
    + intros [H|(o' & [->|H1]%elem_of_cons & H2)]; [by left; left| |].
      * left; right. done.
      * right. by exists o'.
Qed.

Lemma disableOutputsOf_elem (act : gset string) (current : Outputs) (name : string) :
  name ∈ disableOutputsOf act current
  <-> exists o, o ∈ current /\ Output_Name o = name /\ toDisable act o.
Proof. unfold disableOutputsOf. rewrite foldl_disableBody_elem. set_solver. Qed.

Lemma filter_firstMentions_cons (D : gset string) (name : string) (l : list string) :
  filter (fun n => n ∈ D) (filter (fun n => n ≠ name) l)
  = filter (fun n => n ∈ D ∖ {[ name ]}) l.
Proof.
  rewrite list_filter_filter. apply list_filter_iff. intros n. set_solver.
Qed.

Lemma foldl_disableOrderBody (order : list string) :
  forall (D : gset string) (args : list (list string)),
    foldl disableOrderBody (D, args) order
    = (D ∖ list_to_set order,
       (args ++ (offArgs <$> filter (fun n => n ∈ D) (firstMentions order)))%list).
Proof.
  induction order as [|name order IH]; intros D args; simpl.
  - f_equal; [set_solver | by rewrite app_nil_r].
  - case_bool_decide as Hin.
    + rewrite IH, filter_cons_True by done.
      rewrite filter_firstMentions_cons. simpl.
      f_equal; [set_solver | by rewrite <- app_assoc].
    + rewrite IH, filter_cons_False by done.
      rewrite filter_firstMentions_cons.
      f_equal; [set_solver |]. do 2 f_equal.
      apply list_filter_iff. intros n. set_solver.
Qed.

Lemma foldl_remainingBody (keys : list string) :
  forall args : list (list string),
    foldl remainingBody args keys = (args ++ (offArgs <$> keys))%list.
Proof.
  induction keys as [|k keys IH]; intros args; simpl.
  - by rewrite app_nil_r.
  - rewrite IH. unfold remainingBody. by rewrite <- app_assoc.
Qed.

(** The disable groups: first the outputs that [DisableOrder] names, in the
    order of their first mention, then the others as [range] visits them. *)
Lemma disableOutputArgsOf_eq (R : MapRange) (rule : Rule) (D : gset string) :
  disableOutputArgsOf R rule D
  = offArgs <$> (filter (fun n => n ∈ D) (firstMentions (Rule_DisableOrder rule))
                 ++ range_keys R (D ∖ list_to_set (Rule_DisableOrder rule)))%list.
Proof.
  unfold disableOutputArgsOf. rewrite foldl_disableOrderBody.
  rewrite foldl_remainingBody. simpl. by rewrite fmap_app.
Qed.

Lemma splitLoop_app (dis : list (list string)) :
  forall (en : list (list string)) (cmds : list exec.Cmd),
    splitLoop dis en cmds = (cmds ++ splitLoop dis en [])%list.
Proof.
  induction dis as [|d dis IHdis]; intros en.
  - induction en as [|e en IHen]; intros cmds; simp splitLoop.
    + by rewrite app_nil_r.
    + rewrite IHen. symmetry. rewrite IHen. simpl. by rewrite <- app_assoc.
  - destruct en as [|e en]; intros cmds; simp splitLoop;
      rewrite IHdis; symmetry; rewrite IHdis; simpl; by rewrite <- app_assoc.
Qed.

Lemma splitLoop_length (dis en : list (list string)) (cmds : list exec.Cmd) :
  length (splitLoop dis en cmds)
  = (length cmds + Nat.max (length dis) (length en))%nat.
Proof.
  funelim (splitLoop dis en cmds); simp splitLoop;
    try rewrite H; try rewrite length_app; simpl; lia.
Qed.

(** [BuildCommandOutputRow] never aborts, and fails for one reason only:
    the rule configures no output. *)
Lemma BuildCommandOutputRow_configured (R : MapRange) (rule : Rule)
      (current : Outputs) (outputs : list string) :
  configuredOutputs rule = Ok outputs ->
  let st := enableOutputs outputs in
  let en := enableOutputArgs st in
  let dis := disableOutputArgsOf R rule (disableOutputsOf (active st) current) in
  BuildCommandOutputRow R rule current
  = Ok (if Rule_Atomic rule
        then [exec.Command command (concat dis ++ concat en)]
        else match dis with
             | first :: rest => splitLoop rest en [exec.Command command first]
             | [] => splitLoop [] en []
             end).
Proof.
  intros Hcfg st en dis. unfold BuildCommandOutputRow. rewrite Hcfg. simpl.
  fold st. fold en. fold dis.
  destruct (Rule_Atomic rule).
  - by rewrite !foldl_append_concat.
  - by destruct dis.
Qed.

Lemma BuildCommandOutputRow_unconfigured (R : MapRange) (rule : Rule)
      (current : Outputs) :
  Rule_ConfigureSingle rule = "" -> Rule_ConfigureRow rule = [] ->
  BuildCommandOutputRow R rule current = Err ErrEmptyRow.
Proof.
  intros Hs Hr. unfold BuildCommandOutputRow, configuredOutputs.
  by rewrite Hs, Hr.
Qed.

(** The calls of the last loop, call by call: the disable groups and the
    enable groups that each call carries. *)
Lemma splitLoop_groups (dis : list (list string)) :
  forall en : list (list string),
    exists ds es : list (list (list string)),
      splitLoop dis en []
      = zip_with (fun d e => exec.Command command (concat d ++ concat e)) ds es
      /\ length ds = length es
      /\ concat ds = dis /\ concat es = en
      /\ Forall2 (fun d e => (length d <= 1 /\ length e <= 1
                              /\ 1 <= length d + length e)%nat) ds es.
Proof.
  induction dis as [|d dis IHdis]; intros en.
  - induction en as [|e en (ds & es & Heq & Hlen & Hds & Hes & Hall)].
    + exists [], []. simp splitLoop. by split_and!.
    + exists ([] :: ds), ([e] :: es). simp splitLoop.
      rewrite splitLoop_app, Heq. cbn [zip_with concat app length].
      rewrite !app_nil_r. split_and!; [done|by rewrite Hlen|done|by rewrite Hes|].
      constructor; [simpl; lia|done].
  - destruct en as [|e en].
    + destruct (IHdis []) as (ds & es & Heq & Hlen & Hds & Hes & Hall).
      exists ([d] :: ds), ([] :: es). simp splitLoop.
      rewrite splitLoop_app, Heq. cbn [zip_with concat app length].
      rewrite !app_nil_r. split_and!; [done|by rewrite Hlen|by rewrite Hds|done|].
      constructor; [simpl; lia|done].
    + destruct (IHdis en) as (ds & es & Heq & Hlen & Hds & Hes & Hall).
      exists ([d] :: ds), ([e] :: es). simp splitLoop.
      rewrite splitLoop_app, Heq. cbn [zip_with concat app length].
      rewrite !app_nil_r.
      split_and!; [done|by rewrite Hlen|by rewrite Hds|by rewrite Hes|].
      constructor; [simpl; lia|done].
Qed.

(** The calls that [BuildCommandOutputRow] returns, call by call: the
    arguments of each call are the disable groups it carries followed by
    the enable groups it carries, and over all calls these are the lists
    [disableOutputArgs] and [enableOutputArgs], in their order. *)
Lemma BuildCommandOutputRow_groups (R : MapRange) (rule : Rule)
      (current : Outputs) (outputs : list string) :
  configuredOutputs rule = Ok outputs ->
  let st := enableOutputs outputs in
  let en := enableOutputArgs st in
  let dis := disableOutputArgsOf R rule (disableOutputsOf (active st) current) in
  exists ds es : list (list (list string)),
    BuildCommandOutputRow R rule current
    = Ok (zip_with (fun d e => exec.Command command (concat d ++ concat e)) ds es)
    /\ length ds = length es
    /\ concat ds = dis /\ concat es = en.
Proof.
  intros Hcfg st en dis.
  rewrite (BuildCommandOutputRow_configured R rule current outputs Hcfg).
  cbv zeta. fold st en dis. clearbody dis en. destruct (Rule_Atomic rule).
  - exists [dis], [en]. cbn [zip_with concat length]. by rewrite !app_nil_r.
  - destruct dis as [|first rest].
    + destruct (splitLoop_groups [] en) as (ds & es & Heq & Hlen & Hds & Hes & _).
      exists ds, es. by rewrite Heq.
    + destruct (splitLoop_groups rest en) as (ds & es & Heq & Hlen & Hds & Hes & _).
      exists ([first] :: ds), ([] :: es).
      rewrite splitLoop_app, Heq. cbn [zip_with concat app length].
      rewrite !app_nil_r. split_and!; [done|by rewrite Hlen|by rewrite Hds|done].
Qed.

(** Every disable group switches one output off. *)
Lemma disableOutputArgsOf_offArgs (R : MapRange) (rule : Rule) (D : gset string)
      (group : list string) :
  group ∈ disableOutputArgsOf R rule D -> exists name, group = offArgs name.
Proof.
  rewrite disableOutputArgsOf_eq. intros (name & -> & _)%list_elem_of_fmap.
  by exists name.
Qed.

(** C4: a rule with Atomic=false that yields d disable groups and e enable
    groups is turned into 1 + max(d-1, e) command descriptors when d > 0,
    the first of which is the first disable group alone, and into e
    descriptors when d = 0. *)
Theorem C4_split_descriptor_count (R : MapRange) (rule : Rule)
        (current : Outputs) (outputs : list string) :
  Rule_Atomic rule = false ->
  configuredOutputs rule = Ok outputs ->
  let st := enableOutputs outputs in
  let en := enableOutputArgs st in
  let dis := disableOutputArgsOf R rule (disableOutputsOf (active st) current) in
  let d := length dis in
  let e := length en in
  exists cmds,
    BuildCommandOutputRow R rule current = Ok cmds
    /\ (0 < d ->
        length cmds = 1 + Nat.max (d - 1) e
        /\ exists name,
            head dis = Some (offArgs name)
            /\ head cmds = Some (exec.Command command (offArgs name)))
    /\ (d = 0 -> length cmds = e).
Proof.
  intros Hatomic Hcfg st en dis d e.
  pose proof (BuildCommandOutputRow_configured R rule current outputs Hcfg) as HB.
  cbv zeta in HB. fold st en dis in HB. rewrite Hatomic in HB.
  eexists. split; [exact HB|]. subst d e.
  pose proof (disableOutputArgsOf_offArgs R rule
                (disableOutputsOf (active st) current)) as Hoff.
  fold dis in Hoff. clearbody dis. clear HB.
  destruct dis as [|first rest]; simpl.
  - split; [lia|]. intros _. rewrite splitLoop_length. simpl. lia.
  - split; [|lia]. intros _. split.
    + rewrite splitLoop_length. simpl. rewrite Nat.sub_0_r. lia.
    + destruct (Hoff first) as [name ->]; [left|].
      exists name. split; [done|]. by rewrite splitLoop_app.
Qed.

(** The count on the specification's example: one disable group and two
    enable groups give three descriptors. *)
Lemma C4_split_descriptor_count_witness :
  Rule_Atomic example_rule = false
  /\ configuredOutputs example_rule = Ok ["LVDS1"; "VGA1@1024x768"]
  /\ exists cmds,
      BuildCommandOutputRow range_elements example_rule example_current = Ok cmds
      /\ length cmds = 3.
Proof.
  split; [reflexivity|]. split; [reflexivity|].
  destruct (C4_split_descriptor_count range_elements example_rule example_current
              ["LVDS1"; "VGA1@1024x768"] eq_refl eq_refl)
    as (cmds & HB & Hpos & _).
  exists cmds. split; [exact HB|].
  destruct Hpos as [Hlen _]; [vm_compute; lia|]. exact Hlen.
Defined.

Lemma range_keys_singleton (R : MapRange) (name : string) :
  range_keys R {[ name ]} = [name].
Proof.
  pose proof (range_keys_perm R {[ name ]}) as HP.
  rewrite elements_singleton in HP. by apply Permutation_singleton_r in HP.
Qed.

Lemma range_keys_empty (R : MapRange) : range_keys R ∅ = [].
Proof.
  pose proof (range_keys_perm R ∅) as HP.
  rewrite elements_empty in HP. by apply Permutation_nil_r in HP.
Qed.

(** In the specification's example only HDMI2 is switched off. *)
Lemma example_disable_groups (R : MapRange) :
  disableOutputArgsOf R example_rule
    (disableOutputsOf (active (enableOutputs ["LVDS1"; "VGA1@1024x768"]))
                      example_current)
  = [offArgs "HDMI2"].
Proof.
  rewrite disableOutputArgsOf_eq.
  replace (disableOutputsOf _ example_current) with ({[ "HDMI2" ]} : gset string)
    by (vm_compute; reflexivity).
  cbn [Rule_DisableOrder example_rule layoutRule firstMentions list_to_set].
  rewrite difference_empty_L, range_keys_singleton. reflexivity.
Qed.

(** C2, as the specification's example puts it, fails: whatever the order of
    [range], the example yields no sequence of two descriptors. *)
Lemma C2_example_two_descriptors_refuted :
  ~ exists (R : MapRange) (c1 c2 : exec.Cmd),
      BuildCommandOutputRow R example_rule example_current = Ok [c1; c2].
Proof.
  intros (R & c1 & c2 & H).
  rewrite (BuildCommandOutputRow_configured R example_rule example_current
             ["LVDS1"; "VGA1@1024x768"] eq_refl) in H.
  cbv zeta in H. rewrite example_disable_groups in H.
  apply (f_equal (fun r => match r with Ok l => length l | _ => 0 end)) in H.
  cbn [Rule_Atomic example_rule layoutRule] in H.
  rewrite splitLoop_length, enableOutputs_length in H. discriminate H.
Qed.

(** C2 (amended): for the rule [{ConfigureRow:["LVDS1","VGA1@1024x768"],
    Atomic:false}] and the current outputs HDMI2 (connected) and LVDS1
    (disconnected, no modes), [BuildCommandOutputRow] returns exactly three
    command descriptors: the disable group of HDMI2 alone, then the enable
    group of LVDS1 alone, then the enable group of VGA1 alone. *)
Theorem C2_example_three_descriptors (R : MapRange) :
  BuildCommandOutputRow R example_rule example_current
  = Ok [exec.Command "xrandr" ["--output"; "HDMI2"; "--off"];
        exec.Command "xrandr" ["--output"; "LVDS1"; "--auto"];
        exec.Command "xrandr" ["--output"; "VGA1"; "--mode"; "1024x768";
                               "--right-of"; "LVDS1"]].
Proof.
  rewrite (BuildCommandOutputRow_configured R example_rule example_current
             ["LVDS1"; "VGA1@1024x768"] eq_refl).
  cbv zeta. rewrite example_disable_groups. reflexivity.
Qed.

(** C5, as stated for every rule with Atomic=true, fails: an atomic rule
    with neither ConfigureSingle nor ConfigureRow is refused with the error
    "empty monitor row configuration", and there is no descriptor. *)
Lemma C5_bare_atomic_rule_refuted :
  Rule_Atomic bare_atomic_rule = true
  /\ forall (R : MapRange) (current : Outputs),
      BuildCommandOutputRow R bare_atomic_rule current = Err ErrEmptyRow
      /\ ~ exists cmd, BuildCommandOutputRow R bare_atomic_rule current = Ok [cmd].
Proof.
  split; [reflexivity|]. intros R current.
  assert (H : BuildCommandOutputRow R bare_atomic_rule current = Err ErrEmptyRow)
    by reflexivity.
  split; [exact H|]. intros [cmd Hcmd]. rewrite H in Hcmd. discriminate.
Qed.

(** C5 (amended): for a rule with Atomic=true that names the outputs to
    configure (ConfigureSingle, or else a ConfigureRow that is not empty),
    [BuildCommandOutputRow] returns exactly one command descriptor, whose
    arguments are all disable groups followed by all enable groups. *)
Theorem C5_atomic_single_descriptor (R : MapRange) (rule : Rule)
        (current : Outputs) (outputs : list string) :
  Rule_Atomic rule = true ->
  configuredOutputs rule = Ok outputs ->
  let st := enableOutputs outputs in
  let en := enableOutputArgs st in
  let dis := disableOutputArgsOf R rule (disableOutputsOf (active st) current) in
  BuildCommandOutputRow R rule current
  = Ok [exec.Command command (concat dis ++ concat en)]
  /\ Forall (fun group => exists name, group = offArgs name) dis
  /\ length en = length outputs.
Proof.
  intros Hatomic Hcfg st en dis.
  pose proof (BuildCommandOutputRow_configured R rule current outputs Hcfg) as HB.
  cbv zeta in HB. rewrite Hatomic in HB. split; [exact HB|]. split.
  - apply Forall_forall. intros group Hin.
    eapply disableOutputArgsOf_offArgs. exact Hin.
  - apply enableOutputs_length.
Qed.

(** An atomic rule with a disable order, on four current outputs. *)
Lemma C5_atomic_single_descriptor_witness :
  Rule_Atomic ordered_rule = true
  /\ configuredOutputs ordered_rule = Ok ["LVDS1"; "VGA1@1024x768"]
  /\ BuildCommandOutputRow range_elements ordered_rule ordered_current
     = Ok [exec.Command "xrandr"
             ["--output"; "DP2"; "--off"; "--output"; "HDMI2"; "--off";
              "--output"; "DP1"; "--off";
              "--output"; "LVDS1"; "--auto";
              "--output"; "VGA1"; "--mode"; "1024x768"; "--right-of"; "LVDS1"]].
Proof.
  split; [reflexivity|]. split; [reflexivity|].
  exact (proj1 (C5_atomic_single_descriptor range_elements ordered_rule
                  ordered_current ["LVDS1"; "VGA1@1024x768"] eq_refl eq_refl)).
Defined.

(** C10: for a rule in which both ConfigureSingle and ConfigureRow are
    populated, [BuildCommandOutputRow] does not fail; the outputs to enable
    are the single ConfigureSingle entry, and ConfigureRow has no influence
    on the result. *)
Theorem C10_single_takes_precedence (R : MapRange) (rule : Rule) (current : Outputs) :
  Rule_ConfigureSingle rule <> "" ->
  Rule_ConfigureRow rule <> [] ->
  configuredOutputs rule = Ok [Rule_ConfigureSingle rule]
  /\ (exists cmds, BuildCommandOutputRow R rule current = Ok cmds)
  /\ forall row,
       BuildCommandOutputRow R (withConfigureRow rule row) current
       = BuildCommandOutputRow R rule current.
Proof.
  intros Hsingle _.
  assert (Hcfg : forall row, configuredOutputs (withConfigureRow rule row)
                             = Ok [Rule_ConfigureSingle rule]).
  { intros row. unfold configuredOutputs. simpl.
    apply String.eqb_neq in Hsingle. by rewrite Hsingle. }
  assert (Hcfg0 : configuredOutputs rule = Ok [Rule_ConfigureSingle rule]).
  { unfold configuredOutputs.
    apply String.eqb_neq in Hsingle. by rewrite Hsingle. }
  split; [exact Hcfg0|]. split.
  - rewrite (BuildCommandOutputRow_configured R rule current _ Hcfg0). eauto.
  - intros row.
    rewrite (BuildCommandOutputRow_configured R rule current _ Hcfg0).
    rewrite (BuildCommandOutputRow_configured R _ current _ (Hcfg row)).
    reflexivity.
Qed.

(** A rule with both layout directives: its row does not matter. *)
Lemma C10_single_takes_precedence_witness :
  Rule_ConfigureSingle both_rule <> ""
  /\ Rule_ConfigureRow both_rule <> []
  /\ configuredOutputs both_rule = Ok ["LVDS1"]
  /\ BuildCommandOutputRow range_elements
       (withConfigureRow both_rule ["DP1"]) ordered_current
     = BuildCommandOutputRow range_elements both_rule ordered_current.
Proof.
  split; [discriminate|]. split; [discriminate|].
  destruct (C10_single_takes_precedence range_elements both_rule ordered_current)
    as (Hcfg & _ & Hrow); [discriminate|discriminate|].
  split; [exact Hcfg|apply Hrow].
Defined.

Lemma elem_of_firstMentions (order : list string) (name : string) :
  name ∈ firstMentions order <-> name ∈ order.
Proof.
  induction order as [|x order IH]; simpl; [done|].
  rewrite !elem_of_cons, list_elem_of_filter, IH.
  destruct (decide (name = x)); naive_solver.
Qed.

Lemma NoDup_firstMentions (order : list string) : NoDup (firstMentions order).
Proof.
  induction order as [|x order IH]; simpl; [constructor|].
  constructor.
  - rewrite list_elem_of_filter. naive_solver.
  - by apply NoDup_filter.
Qed.

Lemma filter_other_absent (x : string) (l : list string) :
  x ∉ l -> filter (fun n => n ≠ x) l = l.
Proof.
  induction l as [|y l IH]; intros Hx; [done|].
  apply not_elem_of_cons in Hx as [Hne Hx].
  rewrite filter_cons_True by done. by rewrite IH.
Qed.

Lemma firstMentions_NoDup (order : list string) :
  NoDup order -> firstMentions order = order.
Proof.
  induction 1 as [|x order Hx _ IH]; simpl; [done|].
  by rewrite IH, filter_other_absent.
Qed.

Lemma sublist_firstMentions (order : list string) :
  sublist (firstMentions order) order.
Proof.
  induction order as [|x order IH]; simpl; [constructor|].
  apply sublist_skip. etrans; [apply sublist_filter|exact IH].
Qed.

Lemma elem_of_range_keys (R : MapRange) (m : gset string) (name : string) :
  name ∈ range_keys R m <-> name ∈ m.
Proof. by rewrite (range_keys_perm R m), elem_of_elements. Qed.

Lemma NoDup_range_keys (R : MapRange) (m : gset string) : NoDup (range_keys R m).
Proof. rewrite (range_keys_perm R m). apply NoDup_elements. Qed.

(** A name has a disable group exactly when it is in the set
    [disableOutputs]. *)
Lemma elem_of_disableOutputArgsOf (R : MapRange) (rule : Rule) (D : gset string)
      (name : string) :
  offArgs name ∈ disableOutputArgsOf R rule D <-> name ∈ D.
Proof.
  rewrite disableOutputArgsOf_eq, (list_elem_of_fmap_inj offArgs).
  rewrite elem_of_app, list_elem_of_filter, elem_of_firstMentions.
  rewrite elem_of_range_keys, elem_of_difference, elem_of_list_to_set.
  destruct (decide (name ∈ Rule_DisableOrder rule)); naive_solver.
Qed.

Lemma toDisable_disableCondition (outputs : list string) (o : Output) :
  toDisable (active (enableOutputs outputs)) o <-> disableCondition outputs o.
Proof.
  unfold toDisable, disableCondition, isTarget.
  rewrite enableOutputs_active.
  destruct (Output_Connected o); naive_solver.
Qed.

(** C6, as the specification words it, fails: a disconnected output whose
    report still lists a mode that is not active is switched off, by the
    first call that [BuildCommandOutputRow] returns. *)
Lemma C6_active_mode_condition_refuted :
  RandrParse stale_report = Ok [stale_output]
  /\ ~ wordedDisableCondition ["LVDS1"] stale_output
  /\ (forall R : MapRange,
        BuildCommandOutputRow R single_rule [stale_output]
        = Ok [exec.Command "xrandr" (offArgs (Output_Name stale_output));
              exec.Command "xrandr" ["--output"; "LVDS1"; "--auto"]])
  /\ ~ (receivesDisableGroup range_elements single_rule [stale_output] ["LVDS1"]
          (Output_Name stale_output)
        <-> wordedDisableCondition ["LVDS1"] stale_output).
Proof.
  assert (Hworded : ~ wordedDisableCondition ["LVDS1"] stale_output).
  { intros [_ [Hconn|[_ (m & Hm & Hactive)]]]; [discriminate Hconn|].
    apply elem_of_cons in Hm as [->|Hm]; [discriminate Hactive|].
    by apply elem_of_nil in Hm. }
  assert (Hgroups : forall R : MapRange,
             disableOutputArgsOf R single_rule
               (disableOutputsOf (active (enableOutputs ["LVDS1"])) [stale_output])
             = [offArgs "VGA1"]).
  { intros R. rewrite disableOutputArgsOf_eq.
    replace (disableOutputsOf _ [stale_output]) with ({[ "VGA1" ]} : gset string)
      by (vm_compute; reflexivity).
    cbn [Rule_DisableOrder single_rule layoutRule firstMentions list_to_set].
    rewrite difference_empty_L, range_keys_singleton. reflexivity. }
  split; [vm_compute; reflexivity|]. split; [exact Hworded|]. split.
  - intros R.
    rewrite (BuildCommandOutputRow_configured R single_rule [stale_output]
               ["LVDS1"] eq_refl).
    cbv zeta. rewrite Hgroups. reflexivity.
  - intros [Hforth _]. apply Hworded, Hforth.
    unfold receivesDisableGroup. rewrite Hgroups. apply elem_of_cons. by left.
Qed.

(** C6 (amended): for a rule that names the outputs to configure, the
    calls that [BuildCommandOutputRow] returns carry, besides the enable
    groups, the disable groups; a name has a disable group (--output <name>
    --off) among them if and only if an output of the current model bears
    it that is not a target of the rule and is either connected or
    disconnected but still carrying a mode, active or not; where the names
    of the current model are distinct, this holds output by output. *)
Theorem C6_disable_condition (R : MapRange) (rule : Rule) (current : Outputs)
        (outputs : list string) :
  configuredOutputs rule = Ok outputs ->
  exists ds es : list (list (list string)),
    BuildCommandOutputRow R rule current
    = Ok (zip_with (fun d e => exec.Command command (concat d ++ concat e)) ds es)
    /\ length ds = length es
    /\ concat es = enableOutputArgs (enableOutputs outputs)
    /\ (forall group, group ∈ concat ds -> exists name, group = offArgs name)
    /\ (forall name,
          offArgs name ∈ concat ds
          <-> receivesDisableGroup R rule current outputs name)
    /\ (forall name,
          offArgs name ∈ concat ds
          <-> exists o, o ∈ current /\ Output_Name o = name
                        /\ disableCondition outputs o)
    /\ (NoDup (Output_Name <$> current) ->
        forall o, o ∈ current ->
          offArgs (Output_Name o) ∈ concat ds <-> disableCondition outputs o).
Proof.
  intros Hcfg.
  destruct (BuildCommandOutputRow_groups R rule current outputs Hcfg)
    as (ds & es & HB & Hlen & Hds & Hes).
  exists ds, es. rewrite Hds.
  assert (Hname : forall name,
      offArgs name
      ∈ disableOutputArgsOf R rule
          (disableOutputsOf (active (enableOutputs outputs)) current)
      <-> exists o, o ∈ current /\ Output_Name o = name /\ disableCondition outputs o).
  { intros name.
    rewrite elem_of_disableOutputArgsOf, disableOutputsOf_elem.
    by setoid_rewrite toDisable_disableCondition. }
  split; [exact HB|]. split; [exact Hlen|]. split; [exact Hes|].
  split; [intros group; apply disableOutputArgsOf_offArgs|].
  split; [done|]. split; [exact Hname|].
  intros Hnodup o Ho. rewrite Hname. split.
  - intros (o' & Ho' & Heq & Hc).
    assert (o' = o) as <-; [|done].
    apply list_elem_of_lookup in Ho as [i Hi], Ho' as [j Hj].
    assert (i = j) as ->; [|congruence].
    eapply NoDup_lookup; [exact Hnodup| |];
      rewrite list_lookup_fmap; [rewrite Hi|rewrite Hj]; simpl;
      [reflexivity|by rewrite Heq].
  - intros Hc. by exists o.
Qed.

(** The disconnected output with a stale mode, under a rule for LVDS1. *)
Lemma C6_disable_condition_witness :
  configuredOutputs single_rule = Ok ["LVDS1"]
  /\ exists ds es : list (list (list string)),
      BuildCommandOutputRow range_elements single_rule [stale_output]
      = Ok (zip_with (fun d e => exec.Command command (concat d ++ concat e)) ds es)
      /\ (offArgs "VGA1" ∈ concat ds
          <-> exists o, o ∈ [stale_output] /\ Output_Name o = "VGA1"
                        /\ disableCondition ["LVDS1"] o).
Proof.
  split; [reflexivity|].
  destruct (C6_disable_condition range_elements single_rule [stale_output]
              ["LVDS1"] eq_refl)
    as (ds & es & HB & _ & _ & _ & _ & Hname & _).
  exists ds, es. split; [exact HB|exact (Hname "VGA1")].
Defined.

(** C7: the disable argument groups that the calls of
    [BuildCommandOutputRow] carry list the outputs that the rule's
    DisableOrder names and that belong to the disable set first, in the
    order in which DisableOrder mentions them, before the disable group of
    any output that DisableOrder does not name. *)
Theorem C7_disable_order (R : MapRange) (rule : Rule) (current : Outputs)
        (outputs : list string) :
  configuredOutputs rule = Ok outputs ->
  let D := disableOutputsOf (active (enableOutputs outputs)) current in
  let order := Rule_DisableOrder rule in
  exists listed rest : list string,
    (exists ds es : list (list (list string)),
        BuildCommandOutputRow R rule current
        = Ok (zip_with (fun d e => exec.Command command (concat d ++ concat e))
                       ds es)
        /\ length ds = length es
        /\ concat ds = ((offArgs <$> listed) ++ (offArgs <$> rest))%list
        /\ concat es = enableOutputArgs (enableOutputs outputs))
    /\ disableOutputArgsOf R rule D = ((offArgs <$> listed) ++ (offArgs <$> rest))%list
    /\ listed = filter (fun n => n ∈ D) (firstMentions order)
    /\ (NoDup order -> listed = filter (fun n => n ∈ D) order)
    /\ sublist listed order
    /\ (forall n, n ∈ listed <-> n ∈ order /\ n ∈ D)
    /\ (forall n, n ∈ rest <-> n ∈ D /\ n ∉ order)
    /\ NoDup (listed ++ rest).
Proof.
  intros Hcfg D order.
  exists (filter (fun n => n ∈ D) (firstMentions order)),
         (range_keys R (D ∖ list_to_set order)).
  assert (Hdis : disableOutputArgsOf R rule D
                 = ((offArgs <$> filter (fun n => n ∈ D) (firstMentions order))
                    ++ (offArgs <$> range_keys R (D ∖ list_to_set order)))%list)
    by (by rewrite disableOutputArgsOf_eq, fmap_app).
  split.
  { destruct (BuildCommandOutputRow_groups R rule current outputs Hcfg)
      as (ds & es & HB & Hlen & Hds & Hes).
    exists ds, es. fold D in Hds. by rewrite <- Hdis. }
  split; [exact Hdis|].
  split; [done|]. split; [by intros ->%firstMentions_NoDup|].
  split; [etrans; [apply sublist_filter|apply sublist_firstMentions]|].
  split; [intros n; rewrite list_elem_of_filter, elem_of_firstMentions; naive_solver|].
  split.
  - intros n. rewrite elem_of_range_keys, elem_of_difference, elem_of_list_to_set.
    done.
  - apply NoDup_app. split; [apply NoDup_filter, NoDup_firstMentions|].
    split; [|apply NoDup_range_keys].
    intros n. rewrite list_elem_of_filter, elem_of_firstMentions, elem_of_range_keys.
    set_solver.
Qed.

(** A disable order that names DP2 twice and HDMI2 once, with DP1 left to
    the iteration over the map. *)
Lemma C7_disable_order_witness :
  configuredOutputs ordered_rule = Ok ["LVDS1"; "VGA1@1024x768"]
  /\ exists (listed rest : list string) (ds es : list (list (list string))),
      BuildCommandOutputRow range_elements ordered_rule ordered_current
      = Ok (zip_with (fun d e => exec.Command command (concat d ++ concat e)) ds es)
      /\ concat ds = ((offArgs <$> listed) ++ (offArgs <$> rest))%list
      /\ listed = ["DP2"; "HDMI2"]
      /\ "DP1" ∈ rest.
Proof.
  split; [reflexivity|].
  destruct (C7_disable_order range_elements ordered_rule ordered_current
              ["LVDS1"; "VGA1@1024x768"] eq_refl)
    as (listed & rest & (ds & es & HB & _ & Hds & _) & _ & Hlisted & _ & _ & _
        & Hrest & _).
  exists listed, rest, ds, es. split; [exact HB|]. split; [exact Hds|]. split.
  - rewrite Hlisted. vm_compute. reflexivity.
  - apply Hrest. split; apply (bool_decide_unpack _); vm_compute; exact I.
Defined.

(** ** Glob patterns *)

Lemma parseRanges_rest (fuel : nat) :
  forall (chunk : string) (r : Z) (m : bool) (n : nat) (r' : Z) (m' : bool),
    restOfRanges (path.parseRanges fuel chunk r m n)
    = restOfRanges (path.parseRanges fuel chunk r' m' n).
Proof.
  induction fuel as [|fuel IH]; intros chunk r m n r' m'; [reflexivity|].
  cbn [path.parseRanges].
  destruct (strings.HasPrefix chunk "]" && (0 <? n)%nat); [reflexivity|].
  destruct (path.getEsc chunk) as [[lo c1]|e|x]; [|reflexivity..].
  cbn [mbind outcome_bind].
  destruct (index c1 0) as [c0|e|x]; [|reflexivity..].
  cbn [mbind outcome_bind].
  destruct (if Ascii.eqb c0 "-" then path.getEsc (drop_bytes 1 c1) else Ok (lo, c1))
    as [[hi c2]|e|x]; [|reflexivity..].
  cbn [mbind outcome_bind]. apply IH.
Qed.

Lemma index_0_cons (c : ascii) (s : string) : index (String c s) 0 = Ok c.
Proof. reflexivity. Qed.

Lemma matchChunkLoop_status (fuel : nat) :
  forall (chunk s : string) (failed : bool),
    status (path.matchChunkLoop fuel chunk s failed)
    = status (path.matchChunkLoop fuel chunk "" true).
Proof.
  induction fuel as [|fuel IH]; intros chunk s failed; [reflexivity|].
  destruct chunk as [|c chunk'].
  { simpl. by destruct failed. }
  cbn [path.matchChunkLoop].
  set (failed' := if negb failed && (String.length s =? 0)%nat then true else failed).
  assert (Hs : failed' = false -> exists s0 s', s = String s0 s').
  { subst failed'. destruct failed, s as [|s0 s']; simpl; try discriminate. eauto. }
  cbn [negb andb String.length Nat.eqb].
  destruct (Ascii.eqb c "[").
  - (* a character class *)
    destruct (if negb failed' then _ else _) as [r s1].
    destruct (if strings.HasPrefix chunk' "^" then _ else _) as [negated chunk1].
    pose proof (parseRanges_rest fuel chunk1 r false 0 0%Z false) as Hrest.
    destruct (path.parseRanges fuel chunk1 r false 0) as [[m c2]|e|x],
             (path.parseRanges fuel chunk1 0%Z false 0) as [[m' c2']|e'|x'];
      simpl in Hrest; try discriminate Hrest; cbn [mbind outcome_bind].
    + injection Hrest as ->. rewrite IH. symmetry. apply IH.
    + by injection Hrest as ->.
    + by injection Hrest as ->.
  - destruct (Ascii.eqb c "?").
    + destruct failed'; cbn [negb]; [apply IH|].
      destruct Hs as (s0 & s' & ->); [done|]. rewrite index_0_cons.
      cbn [mbind outcome_bind]. destruct (utf8.DecodeRune _) as [r n].
      rewrite IH. symmetry. apply IH.
    + assert (Hchunk : (if Ascii.eqb c "\" then
                          if (String.length chunk' =? 0)%nat
                          then Err ErrBadPattern else Ok chunk'
                        else Ok (String c chunk')) = Err ErrBadPattern
                       \/ exists c1 chunk1,
                           (if Ascii.eqb c "\" then
                              if (String.length chunk' =? 0)%nat
                              then Err ErrBadPattern else Ok chunk'
                            else Ok (String c chunk')) = Ok (String c1 chunk1)).
      { destruct (Ascii.eqb c "\"); [|right; eauto].
        destruct chunk' as [|c1 chunk1]; [by left|right; eauto]. }
      destruct Hchunk as [->|(c1 & chunk1 & ->)]; [reflexivity|].
      cbn [mbind outcome_bind].
      destruct failed'; cbn [negb]; [apply IH|].
      destruct Hs as (s0 & s' & ->); [done|].
      rewrite !index_0_cons. cbn [mbind outcome_bind].
      rewrite IH. symmetry. apply IH.
Qed.

Lemma matchChunk_status (chunk s : string) :
  status (path.matchChunk chunk s) = status (path.matchChunk chunk "").
Proof.
  unfold path.matchChunk. rewrite matchChunkLoop_status. symmetry.
  apply matchChunkLoop_status.
Qed.

(** After a star, a chunk that is well-formed is looked for without error. *)
Lemma starLoop_ok (chunk pattern : string) :
  status (path.matchChunk chunk "") = Ok () ->
  forall name, status (path.starLoop chunk pattern name) = Ok ().
Proof.
  intros Hchunk name. induction name as [|c name IH]; [reflexivity|].
  cbn [path.starLoop]. destruct (Ascii.eqb c "/"); [reflexivity|].
  pose proof (matchChunk_status chunk name) as Hs. rewrite Hchunk in Hs.
  destruct (path.matchChunk chunk name) as [[t|]|e|x]; try discriminate Hs;
    cbn [mbind outcome_bind]; [|exact IH].
  destruct (_ && _); [exact IH|reflexivity].
Qed.

Lemma skipStars_head (pattern : string) :
  forall star star' pattern',
    path.skipStars pattern star = (star', pattern') ->
    pattern' = "" \/ exists c q, pattern' = String c q /\ Ascii.eqb c "*" = false.
Proof.
  induction pattern as [|c pattern IH]; intros star star' pattern'; simpl.
  - intros [= _ <-]. by left.
  - destruct (Ascii.eqb c "*") eqn:Hc; [apply IH|].
    intros [= _ <-]. right. eauto.
Qed.

(** [scanChunk] returns an empty chunk only at the end of the pattern. *)
Lemma scanChunk_empty_chunk (pattern : string) (star : bool) (rest : string) :
  path.scanChunk pattern = (star, "", rest) -> rest = "".
Proof.
  unfold path.scanChunk.
  destruct (path.skipStars pattern false) as [star' pattern'] eqn:Hskip.
  apply skipStars_head in Hskip as [->|(c & q & -> & Hc)].
  - simpl. by intros [= _ <-].
  - intros [= _ Htake _]. exfalso. revert Htake.
    cbn [path.scanChunkEnd]. rewrite Hc.
    destruct (Ascii.eqb c "\"); [by destruct q|].
    destruct (Ascii.eqb c "["); [done|]. destruct (Ascii.eqb c "]"); done.
Qed.

(** [path.Match] fails on a pattern exactly when the check of the whole
    pattern for syntax errors fails: the error does not depend on the
    name. *)
Lemma matchLoop_error (fuel : nat) :
  forall (pattern name : string) (e : error),
    path.matchLoop fuel pattern name = Err e <-> path.checkRest fuel pattern = Err e.
Proof.
  induction fuel as [|fuel IH]; intros pattern name e; [done|].
  cbn [path.matchLoop path.checkRest].
  destruct (0 <? String.length pattern)%nat; [|done].
  destruct (path.scanChunk pattern) as [[star chunk] rest] eqn:Hscan.
  destruct (star && (String.length chunk =? 0)%nat) eqn:Hstar.
  - apply andb_prop in Hstar as [-> Hlen].
    destruct chunk; [|discriminate Hlen].
    apply scanChunk_empty_chunk in Hscan as ->.
    cbn [path.matchChunk path.matchChunkLoop String.length mbind outcome_bind].
    by destruct fuel.
  - pose proof (matchChunk_status chunk name) as Hs.
    destruct (path.matchChunk chunk name) as [r|e'|x],
             (path.matchChunk chunk "") as [r0|e0|x0] eqn:Hempty;
      try discriminate Hs; cbn [mbind outcome_bind].
    + destruct (match r with Some t => _ | None => None end) as [t|]; [apply IH|].
      assert (Hstarloop : status (if star then path.starLoop chunk rest name
                                  else Ok None) = Ok ()).
      { destruct star; [|reflexivity]. apply starLoop_ok. by rewrite Hempty. }
      destruct (if star then _ else _) as [[t|]|e'|x]; try discriminate Hstarloop;
        cbn [mbind outcome_bind]; [apply IH|done].
    + by injection Hs as ->.
    + done.
Qed.

Lemma Match_error (pattern name name' : string) (e : error) :
  path.Match pattern name = Err e -> path.Match pattern name' = Err e.
Proof. unfold path.Match. rewrite !matchLoop_error. done. Qed.

(** *** [path.Match] returns *)

Lemma getEsc_shrinks (chunk : string) (r : Z) (nchunk : string) :
  path.getEsc chunk = Ok (r, nchunk) ->
  (0 < String.length nchunk < String.length chunk)%nat.
Proof.
  unfold path.getEsc. destruct chunk as [|c chunk']; [done|].
  destruct (Ascii.eqb c "-" || Ascii.eqb c "]"); [done|].
  set (chunk1 := if Ascii.eqb c "\" then chunk' else String c chunk').
  assert (Hle : (String.length chunk1 <= String.length (String c chunk'))%nat)
    by (subst chunk1; destruct (Ascii.eqb c "\"); simpl; lia).
  destruct (String.length chunk1 =? 0)%nat eqn:Hlen; [done|].
  apply Nat.eqb_neq in Hlen.
  assert (Hne : chunk1 <> "") by (intros Heq; by rewrite Heq in Hlen).
  pose proof (DecodeRune_width chunk1 Hne) as Hw.
  destruct (utf8.DecodeRune chunk1) as [r1 n]. simpl in Hw.
  destruct ((r1 =? utf8.RuneError)%Z && (n =? 1)%nat); [done|].
  destruct (String.length (drop_bytes n chunk1) =? 0)%nat eqn:Hn; [done|].
  apply Nat.eqb_neq in Hn. intros [= _ <-].
  rewrite drop_bytes_length in Hn |- *. simpl in Hle |- *. lia.
Qed.

Lemma HasPrefix_nonempty (s : string) (c : ascii) :
  strings.HasPrefix s (String c "") = true -> (0 < String.length s)%nat.
Proof. destruct s; simpl; [done|lia]. Qed.

Lemma index_0_ok (s : string) :
  (0 < String.length s)%nat -> exists c, index s 0 = Ok c.
Proof. destruct s as [|c s]; simpl; [lia|]. by exists c. Qed.

(** With fuel for every byte of the chunk, the loop over the ranges of a
    character class ends, and leaves a shorter chunk. *)
Lemma parseRanges_returns (fuel : nat) :
  forall (chunk : string) (r : Z) (m : bool) (n : nat),
    (String.length chunk <= fuel)%nat -> (0 < fuel)%nat ->
    match path.parseRanges fuel chunk r m n with
    | Ok (_, chunk') => (String.length chunk' < String.length chunk)%nat
    | Err _ => True
    | Panic _ => False
    end.
Proof.
  induction fuel as [|fuel IH]; intros chunk r m n Hfuel Hpos; [lia|].
  cbn [path.parseRanges].
  destruct (strings.HasPrefix chunk "]" && (0 <? n)%nat) eqn:Hclose.
  { apply andb_prop in Hclose as [Hp%HasPrefix_nonempty _].
    rewrite drop_bytes_length. lia. }
  destruct (path.getEsc chunk) as [[lo c1]|e|x] eqn:Hlo; cbn [mbind outcome_bind];
    [|done|by destruct chunk as [|c chunk']; [|unfold path.getEsc in Hlo;
       repeat case_match; done]].
  apply getEsc_shrinks in Hlo as Hc1.
  destruct (index_0_ok c1) as [c0 ->]; [lia|]. cbn [mbind outcome_bind].
  assert (Hhi : match (if Ascii.eqb c0 "-" then path.getEsc (drop_bytes 1 c1)
                       else Ok (lo, c1)) with
                | Ok (_, c2) => (0 < String.length c2 <= String.length c1)%nat
                | Err _ => True
                | Panic _ => False
                end).
  { destruct (Ascii.eqb c0 "-"); [|lia].
    destruct (path.getEsc (drop_bytes 1 c1)) as [[hi c2]|e|x] eqn:Hhi; [|done|].
    - apply getEsc_shrinks in Hhi. rewrite drop_bytes_length in Hhi. lia.
    - unfold path.getEsc in Hhi. repeat case_match; done. }
  destruct (if Ascii.eqb c0 "-" then _ else _) as [[hi c2]|e|x];
    cbn [mbind outcome_bind]; [|done..].
  specialize (IH c2 r (if (lo <=? r)%Z && (r <=? hi)%Z then true else m) (S n)).
  destruct (path.parseRanges fuel c2 r _ (S n)) as [[m' c3]|e|x];
    [| done | apply IH; lia].
  assert (String.length c3 < String.length c2)%nat by (apply IH; lia). lia.
Qed.

(** With fuel for every byte of the chunk, [matchChunk] returns. *)
Lemma matchChunkLoop_returns (fuel : nat) :
  forall (chunk s : string) (failed : bool),
    (String.length chunk < fuel)%nat ->
    returns (path.matchChunkLoop fuel chunk s failed).
Proof.
  induction fuel as [|fuel IH]; intros chunk s failed Hfuel; [lia|].
  destruct chunk as [|c chunk'].
  { simpl. by destruct failed. }
  cbn [path.matchChunkLoop]. cbn [String.length] in Hfuel.
  set (failed' := if negb failed && (String.length s =? 0)%nat then true else failed).
  assert (Hs : failed' = false -> exists s0 s', s = String s0 s').
  { subst failed'. destruct failed, s as [|s0 s']; simpl; try discriminate. eauto. }
  destruct (Ascii.eqb c "[").
  - destruct (if negb failed' then _ else _) as [r s1].
    assert (Hchunk1 : forall p : bool * string,
               p = (if strings.HasPrefix chunk' "^" then (true, drop_bytes 1 chunk')
                    else (false, chunk')) ->
               (String.length (snd p) <= String.length chunk')%nat).
    { intros p ->. destruct (strings.HasPrefix chunk' "^"); cbn [snd];
        [rewrite drop_bytes_length|]; lia. }
    specialize (Hchunk1 _ eq_refl).
    destruct (if strings.HasPrefix chunk' "^" then _ else _) as [negated chunk1].
    simpl in Hchunk1.
    pose proof (parseRanges_returns fuel chunk1 r false 0) as Hranges.
    destruct (path.parseRanges fuel chunk1 r false 0) as [[m c2]|e|x];
      cbn [mbind outcome_bind]; [|done|apply Hranges; lia].
    apply IH. assert (String.length c2 < String.length chunk1)%nat
      by (apply Hranges; lia). lia.
  - destruct (Ascii.eqb c "?").
    + destruct failed'; cbn [negb]; [apply IH; lia|].
      destruct Hs as (s0 & s' & ->); [done|]. rewrite index_0_cons.
      cbn [mbind outcome_bind]. destruct (utf8.DecodeRune _) as [r n].
      apply IH. lia.
    + assert (Hchunk : (if Ascii.eqb c "\" then
                          if (String.length chunk' =? 0)%nat
                          then Err ErrBadPattern else Ok chunk'
                        else Ok (String c chunk')) = Err ErrBadPattern
                       \/ exists c1 chunk1,
                           (String.length chunk1 < fuel)%nat /\
                           (if Ascii.eqb c "\" then
                              if (String.length chunk' =? 0)%nat
                              then Err ErrBadPattern else Ok chunk'
                            else Ok (String c chunk')) = Ok (String c1 chunk1)).
      { destruct (Ascii.eqb c "\"); [|right; exists c, chunk'; split; [lia|done]].
        destruct chunk' as [|c1 chunk1]; [by left|right].
        exists c1, chunk1. split; [simpl in Hfuel; lia|done]. }
      destruct Hchunk as [->|(c1 & chunk1 & Hlen & ->)]; [done|].
      cbn [mbind outcome_bind].
      destruct failed'; cbn [negb]; [apply IH; simpl; lia|].
      destruct Hs as (s0 & s' & ->); [done|].
      rewrite !index_0_cons. cbn [mbind outcome_bind]. apply IH. simpl. lia.
Qed.

Lemma matchChunk_returns (chunk s : string) : returns (path.matchChunk chunk s).
Proof. apply matchChunkLoop_returns. lia. Qed.

Lemma skipStars_length (pattern : string) :
  forall star star' pattern',
    path.skipStars pattern star = (star', pattern') ->
    (String.length pattern' <= String.length pattern)%nat
    /\ (pattern' = "" -> pattern <> "" ->
        String.length pattern' < String.length pattern)%nat.
Proof.
  induction pattern as [|c pattern IH]; intros star star' pattern'; simpl.
  - intros [= _ <-]. done.
  - destruct (Ascii.eqb c "*").
    + intros H. apply IH in H as [H1 H2]. split; [lia|]. intros -> _. simpl. lia.
    + intros [= _ <-]. split; [done|]. done.
Qed.

(** [scanChunk] takes at least one byte of a pattern that is not empty. *)
Lemma scanChunk_shrinks (pattern : string) (star : bool) (chunk rest : string) :
  pattern <> "" ->
  path.scanChunk pattern = (star, chunk, rest) ->
  (String.length rest < String.length pattern)%nat.
Proof.
  intros Hne. unfold path.scanChunk.
  destruct (path.skipStars pattern false) as [star' pattern'] eqn:Hskip.
  pose proof (skipStars_length _ _ _ _ Hskip) as [Hle Hlt].
  apply skipStars_head in Hskip as [->|(c & q & -> & Hc)].
  - intros [= _ _ <-]. simpl. specialize (Hlt eq_refl Hne). simpl in Hlt. lia.
  - intros [= _ _ <-]. rewrite drop_bytes_length.
    enough (0 < path.scanChunkEnd (String c q) false)%nat by (simpl in *; lia).
    cbn [path.scanChunkEnd]. rewrite Hc.
    destruct (Ascii.eqb c "\"); [destruct q; lia|].
    destruct (Ascii.eqb c "["); [lia|]. destruct (Ascii.eqb c "]"); lia.
Qed.

Lemma length_pos_nonempty (s : string) :
  (0 <? String.length s)%nat = true -> s <> "".
Proof. by destruct s. Qed.

Lemma checkRest_returns (fuel : nat) :
  forall pattern : string,
    (String.length pattern < fuel)%nat -> returns (path.checkRest fuel pattern).
Proof.
  induction fuel as [|fuel IH]; intros pattern Hfuel; [lia|].
  cbn [path.checkRest].
  destruct (0 <? String.length pattern)%nat eqn:Hpos; [|done].
  apply length_pos_nonempty in Hpos.
  destruct (path.scanChunk pattern) as [[star chunk] rest] eqn:Hscan.
  apply scanChunk_shrinks in Hscan; [|done].
  pose proof (matchChunk_returns chunk "") as Hchunk.
  destruct (path.matchChunk chunk "") as [r|e|x]; cbn [mbind outcome_bind];
    [|done..].
  apply IH. lia.
Qed.

Lemma starLoop_returns (chunk pattern name : string) :
  returns (path.starLoop chunk pattern name).
Proof.
  induction name as [|c name IH]; [done|].
  cbn [path.starLoop]. destruct (Ascii.eqb c "/"); [done|].
  pose proof (matchChunk_returns chunk name) as Hchunk.
  destruct (path.matchChunk chunk name) as [[t|]|e|x]; cbn [mbind outcome_bind];
    [|done..].
  by destruct (_ && _).
Qed.

Lemma matchLoop_returns (fuel : nat) :
  forall pattern name : string,
    (String.length pattern < fuel)%nat -> returns (path.matchLoop fuel pattern name).
Proof.
  induction fuel as [|fuel IH]; intros pattern name Hfuel; [lia|].
  cbn [path.matchLoop].
  destruct (0 <? String.length pattern)%nat eqn:Hpos; [|done].
  apply length_pos_nonempty in Hpos.
  destruct (path.scanChunk pattern) as [[star chunk] rest] eqn:Hscan.
  apply scanChunk_shrinks in Hscan; [|done].
  destruct (star && (String.length chunk =? 0)%nat); [done|].
  pose proof (matchChunk_returns chunk name) as Hchunk.
  destruct (path.matchChunk chunk name) as [r|e|x]; cbn [mbind outcome_bind];
    [|done..].
  destruct (match r with Some t => _ | None => None end) as [t|]; [apply IH; lia|].
  assert (Hstar : returns (if star then path.starLoop chunk rest name else Ok None))
    by (destruct star; [apply starLoop_returns|done]).
  destruct (if star then _ else _) as [[t|]|e|x]; cbn [mbind outcome_bind];
    [apply IH; lia|apply checkRest_returns; lia|done..].
Qed.

(** [path.Match] returns on every pattern and name: the embedding never
    runs out of fuel, and never indexes out of range. *)
Lemma Match_returns (pattern name : string) : returns (path.Match pattern name).
Proof. apply matchLoop_returns. lia. Qed.

(** [Present] and [Connected] return true or false on every input. *)
Lemma Outputs_Present_returns (os : Outputs) (name : string) :
  exists b, Outputs_Present os name = Ok b.
Proof.
  induction os as [|o os IH]; cbn [Outputs_Present]; [eauto|].
  pose proof (Match_returns name (Output_Name o)) as Hm.
  destruct (path.Match name (Output_Name o)) as [[]|e|x]; by eauto.
Qed.

Lemma Outputs_Connected_returns (os : Outputs) (name : string) :
  exists b, Outputs_Connected os name = Ok b.
Proof.
  induction os as [|o os IH]; cbn [Outputs_Connected]; [eauto|].
  pose proof (Match_returns name (Output_Name o)) as Hm.
  destruct (path.Match name (Output_Name o)) as [[]|e|x]; [| |by eauto|done].
  - destruct (Output_Connected o); simpl; eauto.
  - simpl. eauto.
Qed.

(** C8: for a malformed pattern, [Present] and [Connected] return false,
    whatever the outputs: the error of [path.Match] is not passed on. *)
Theorem C8_malformed_pattern_matches_nothing (os : Outputs) (pattern : string) :
  malformed pattern ->
  Outputs_Present os pattern = Ok false
  /\ Outputs_Connected os pattern = Ok false.
Proof.
  intros [name Hbad]. destruct os as [|o os]; [done|].
  cbn [Outputs_Present Outputs_Connected].
  by rewrite (Match_error pattern name (Output_Name o) _ Hbad).
Qed.

(** A pattern with a character class that is not closed. *)
Lemma C8_malformed_pattern_matches_nothing_witness :
  malformed "DP[2"
  /\ Outputs_Present query_outputs "DP[2" = Ok false
  /\ Outputs_Connected query_outputs "DP[2" = Ok false.
Proof.
  assert (Hbad : malformed "DP[2") by (exists "DP2-2"; vm_compute; reflexivity).
  split; [exact Hbad|].
  exact (C8_malformed_pattern_matches_nothing query_outputs "DP[2" Hbad).
Defined.

(** The queries on well-formed patterns, as the specification's example has
    them. *)
Lemma Present_example :
  Outputs_Present query_outputs "DP2-?" = Ok true
  /\ Outputs_Present [mkOutput "DP2-20" [] true] "DP2-?" = Ok false
  /\ Outputs_Connected query_outputs "VGA?" = Ok false
  /\ Outputs_Connected query_outputs "*" = Ok true.
Proof. repeat split; vm_compute; reflexivity. Qed.

(** * Further properties *)

(** ** Equality of outputs *)

Lemma Mode_eqb_eq (m1 m2 : Mode) : Mode_eqb m1 m2 = bool_decide (m1 = m2).
Proof.
  destruct m1 as [n1 d1 a1], m2 as [n2 d2 a2]. unfold Mode_eqb. simpl.
  destruct (String.eqb_spec n1 n2) as [->|Hn]; simpl.
  - destruct d1, d2, a1, a2; simpl; by rewrite ?bool_decide_eq_true_2,
      ?bool_decide_eq_false_2 by congruence.
  - by rewrite bool_decide_eq_false_2 by congruence.
Qed.

Lemma at_index_lookup {A} (l : list A) (i : nat) (x : A) :
  l !! i = Some x -> at_index l i = Ok x.
Proof. unfold at_index. by intros ->. Qed.

Lemma Output_Equals_loop_drop (n : nat) :
  forall (i : nat) (modes other : Modes),
    (i + n)%nat = length modes -> length modes = length other ->
    Output_Equals_loop n i modes other
    = Ok (bool_decide (drop i modes = drop i other)).
Proof.
  induction n as [|n IH]; intros i modes other Hn Hlen; cbn [Output_Equals_loop].
  - rewrite !drop_ge by lia. by rewrite bool_decide_eq_true_2.
  - destruct (lookup_lt_is_Some_2 modes i) as [m1 H1]; [lia|].
    destruct (lookup_lt_is_Some_2 other i) as [m2 H2]; [lia|].
    rewrite (at_index_lookup _ _ _ H1), (at_index_lookup _ _ _ H2).
    cbn [mbind outcome_bind].
    rewrite (drop_S _ _ _ H1), (drop_S _ _ _ H2), Mode_eqb_eq.
    case_bool_decide as Hm; cbn [negb].
    + subst m2. rewrite IH by lia.
      f_equal. apply bool_decide_ext.
      split; [intros H; by rewrite H|intros H; by injection H].
    + by rewrite bool_decide_eq_false_2 by congruence.
Qed.

Lemma Output_Equals_spec (o other : Output) :
  Output_Equals o other = Ok (bool_decide (o = other)).
Proof.
  destruct o as [n1 ms1 c1], other as [n2 ms2 c2]. unfold Output_Equals. simpl.
  destruct (String.eqb_spec n1 n2) as [->|Hn]; simpl;
    [|by rewrite bool_decide_eq_false_2 by congruence].
  destruct (Bool.eqb_spec c1 c2) as [->|Hc]; simpl;
    [|by rewrite bool_decide_eq_false_2 by congruence].
  destruct (Nat.eqb_spec (length ms1) (length ms2)) as [Hlen|Hlen]; simpl.
  - rewrite Output_Equals_loop_drop by (done || lia). rewrite !drop_0.
    f_equal. apply bool_decide_ext.
    split; [by intros ->|by intros [= ->]].
  - rewrite bool_decide_eq_false_2; [done|]. intros [= ->]. done.
Qed.

(** [Output.Equals] never indexes out of range, and answers true exactly
    when the two outputs have the same name, the same connected flag and
    the same modes in the same order. *)
Theorem Output_Equals_decides (o other : Output) :
  Output_Equals o other = Ok (bool_decide (o = other)).
Proof. exact (Output_Equals_spec o other). Qed.

Lemma Outputs_Equals_loop_drop (n : nat) :
  forall (i : nat) (os other : Outputs),
    (i + n)%nat = length os -> length os = length other ->
    Outputs_Equals_loop n i os other
    = Ok (bool_decide (drop i os = drop i other)).
Proof.
  induction n as [|n IH]; intros i os other Hn Hlen; cbn [Outputs_Equals_loop].
  - rewrite !drop_ge by lia. by rewrite bool_decide_eq_true_2.
  - destruct (lookup_lt_is_Some_2 os i) as [o1 H1]; [lia|].
    destruct (lookup_lt_is_Some_2 other i) as [o2 H2]; [lia|].
    rewrite (at_index_lookup _ _ _ H1), (at_index_lookup _ _ _ H2).
    cbn [mbind outcome_bind].
    rewrite (drop_S _ _ _ H1), (drop_S _ _ _ H2), Output_Equals_spec.
    cbn [mbind outcome_bind].
    case_bool_decide as Ho; cbn [negb].
    + subst o2. rewrite IH by lia.
      f_equal. apply bool_decide_ext.
      split; [intros H; by rewrite H|intros H; by injection H].
    + by rewrite bool_decide_eq_false_2 by congruence.
Qed.

(** [Outputs.Equals] never indexes out of range, and answers true exactly
    when the two sequences are the same outputs in the same order. *)
Theorem Outputs_Equals_decides (os other : Outputs) :
  Outputs_Equals os other = Ok (bool_decide (os = other)).
Proof.
  unfold Outputs_Equals.
  destruct (Nat.eqb_spec (length os) (length other)) as [Hlen|Hlen]; simpl.
  - by rewrite Outputs_Equals_loop_drop by (done || lia).
  - rewrite bool_decide_eq_false_2; [done|]. by intros ->.
Qed.

(** ** Queries *)

Lemma Match_true_no_error (pattern name name' : string) (e : error) :
  path.Match pattern name = Ok true -> path.Match pattern name' <> Err e.
Proof.
  intros Htrue Herr. apply (Match_error _ _ name) in Herr. congruence.
Qed.

Lemma Outputs_Present_iff (os : Outputs) (pattern : string) :
  Outputs_Present os pattern = Ok true
  <-> exists o, o ∈ os /\ path.Match pattern (Output_Name o) = Ok true.
Proof.
  induction os as [|o0 os IH]; cbn [Outputs_Present].
  - split; [done|]. intros (o & Ho & _). by apply elem_of_nil in Ho.
  - pose proof (Match_returns pattern (Output_Name o0)) as Hret.
    destruct (path.Match pattern (Output_Name o0)) as [[]|e|x] eqn:Hm; [| | |done].
    + split; [|done]. intros _. exists o0. split; [left|done].
    + rewrite IH. split.
      * intros (o & Ho & Ht). exists o. split; [by right|done].
      * intros (o & [->|Ho]%elem_of_cons & Ht); [congruence|]. by exists o.
    + split; [done|]. intros (o & _ & Ht).
      by apply (Match_true_no_error _ _ (Output_Name o0) e) in Ht.
Qed.

(** [Present] answers true exactly when the pattern matches the name of some
    output of the list, wherever that output stands in the list. *)
Theorem Outputs_Present_true (os : Outputs) (pattern : string) :
  Outputs_Present os pattern = Ok true
  <-> exists o, o ∈ os /\ path.Match pattern (Output_Name o) = Ok true.
Proof. exact (Outputs_Present_iff os pattern). Qed.

Lemma Outputs_Connected_iff (os : Outputs) (pattern : string) :
  Outputs_Connected os pattern = Ok true
  <-> exists o, o ∈ os /\ path.Match pattern (Output_Name o) = Ok true
                /\ Output_Connected o = true.
Proof.
  induction os as [|o0 os IH]; cbn [Outputs_Connected].
  - split; [done|]. intros (o & Ho & _). by apply elem_of_nil in Ho.
  - pose proof (Match_returns pattern (Output_Name o0)) as Hret.
    destruct (path.Match pattern (Output_Name o0)) as [m|e|x] eqn:Hm; [| |done].
    + destruct (m && Output_Connected o0) eqn:Hmc.
      * apply andb_prop in Hmc as [-> Hc]. split; [|done]. intros _.
        exists o0. split; [left|done].
      * rewrite IH. split.
        -- intros (o & Ho & Ht). exists o. split; [by right|done].
        -- intros (o & [->|Ho]%elem_of_cons & Ht & Hc); [|by exists o].
           rewrite Hm in Ht. injection Ht as ->. by rewrite Hc in Hmc.
    + split; [done|]. intros (o & _ & Ht & _).
      by apply (Match_true_no_error _ _ (Output_Name o0) e) in Ht.
Qed.

(** [Connected] answers true exactly when the pattern matches the name of
    some connected output of the list. *)
Theorem Outputs_Connected_true (os : Outputs) (pattern : string) :
  Outputs_Connected os pattern = Ok true
  <-> exists o, o ∈ os /\ path.Match pattern (Output_Name o) = Ok true
                /\ Output_Connected o = true.
Proof. exact (Outputs_Connected_iff os pattern). Qed.

(** A pattern that [Connected] finds is one that [Present] finds. *)
Theorem Outputs_Connected_Present (os : Outputs) (pattern : string) :
  Outputs_Connected os pattern = Ok true -> Outputs_Present os pattern = Ok true.
Proof.
  rewrite Outputs_Connected_iff, Outputs_Present_iff.
  intros (o & Ho & Ht & _). by exists o.
Qed.

Lemma Outputs_Connected_Present_witness :
  Outputs_Connected query_outputs "DP2-?" = Ok true
  /\ Outputs_Present query_outputs "DP2-?" = Ok true.
Proof.
  assert (H : Outputs_Connected query_outputs "DP2-?" = Ok true)
    by (vm_compute; reflexivity).
  split; [exact H|]. exact (Outputs_Connected_Present query_outputs "DP2-?" H).
Defined.

(** The answers of [Present] and [Connected] do not depend on the order of
    the outputs, although both stop at the first output on which
    [path.Match] fails. *)
Theorem Outputs_queries_permutation (os os' : Outputs) (pattern : string) :
  os ≡ₚ os' ->
  Outputs_Present os pattern = Outputs_Present os' pattern
  /\ Outputs_Connected os pattern = Outputs_Connected os' pattern.
Proof.
  intros Hperm.
  assert (HP : Outputs_Present os pattern = Ok true
               <-> Outputs_Present os' pattern = Ok true).
  { rewrite !Outputs_Present_iff.
    split; intros (o & Ho & Ht); exists o; (split; [|done]).
    - by rewrite <- Hperm.
    - by rewrite Hperm. }
  assert (HC : Outputs_Connected os pattern = Ok true
               <-> Outputs_Connected os' pattern = Ok true).
  { rewrite !Outputs_Connected_iff.
    split; intros (o & Ho & Ht); exists o; (split; [|done]).
    - by rewrite <- Hperm.
    - by rewrite Hperm. }
  destruct (Outputs_Present_returns os pattern) as [b1 H1],
           (Outputs_Present_returns os' pattern) as [b1' H1'],
           (Outputs_Connected_returns os pattern) as [b2 H2],
           (Outputs_Connected_returns os' pattern) as [b2' H2'].
  rewrite H1, H1' in HP |- *. rewrite H2, H2' in HC |- *.
  destruct HP as [HP1 HP2], HC as [HC1 HC2].
  split.
  - destruct b1, b1'; try done;
      [specialize (HP1 eq_refl)|specialize (HP2 eq_refl)]; discriminate.
  - destruct b2, b2'; try done;
      [specialize (HC1 eq_refl)|specialize (HC2 eq_refl)]; discriminate.
Qed.

Lemma Outputs_queries_permutation_witness :
  query_outputs ≡ₚ reverse query_outputs
  /\ Outputs_Present query_outputs "VGA[0-9]"
     = Outputs_Present (reverse query_outputs) "VGA[0-9]"
  /\ Outputs_Connected query_outputs "VGA[0-9]"
     = Outputs_Connected (reverse query_outputs) "VGA[0-9]".
Proof.
  assert (H : query_outputs ≡ₚ reverse query_outputs)
    by (symmetry; apply reverse_Permutation).
  split; [exact H|].
  exact (Outputs_queries_permutation query_outputs (reverse query_outputs)
           "VGA[0-9]" H).
Defined.

(** *** Plain names *)

Lemma allBytes_cons (P : ascii -> bool) (c : ascii) (s : string) :
  allBytes P (String c s) = true -> P c = true /\ allBytes P s = true.
Proof. simpl. by intros [? ?]%andb_prop. Qed.

Lemma plainByte_spec (c : ascii) :
  plainByte c = true ->
  Ascii.eqb c "*" = false /\ Ascii.eqb c "?" = false
  /\ Ascii.eqb c "[" = false /\ Ascii.eqb c "\" = false.
Proof.
  unfold plainByte. intros H%negb_true_iff.
  by repeat (apply orb_false_elim in H as [H ?]).
Qed.

Lemma scanChunkEnd_plain (pattern : string) :
  isPlain pattern = true -> path.scanChunkEnd pattern false = String.length pattern.
Proof.
  induction pattern as [|c p IH]; [done|].
  intros [(Hstar & _ & Hopen & Hesc)%plainByte_spec Hp]%allBytes_cons.
  cbn [path.scanChunkEnd String.length]. rewrite Hesc, Hopen, Hstar.
  destruct (Ascii.eqb c "]"); by rewrite IH.
Qed.

Lemma take_bytes_all (s : string) : take_bytes (String.length s) s = s.
Proof.
  unfold take_bytes. induction s as [|c s IH]; [done|]. simpl. by rewrite IH.
Qed.

Lemma drop_bytes_all (s : string) : drop_bytes (String.length s) s = "".
Proof. induction s as [|c s IH]; [done|]. simpl. exact IH. Qed.

Lemma scanChunk_plain (pattern : string) :
  isPlain pattern = true -> pattern <> "" ->
  path.scanChunk pattern = (false, pattern, "").
Proof.
  intros Hplain Hne. unfold path.scanChunk.
  destruct pattern as [|c p]; [done|].
  pose proof (allBytes_cons _ _ _ Hplain) as [(Hstar & _)%plainByte_spec _].
  cbn [path.skipStars]. rewrite Hstar.
  by rewrite (scanChunkEnd_plain _ Hplain), take_bytes_all, drop_bytes_all.
Qed.

(** A plain chunk matches the start of a name byte by byte. *)
Lemma matchChunkLoop_plain (chunk : string) :
  forall (fuel : nat) (s : string) (failed : bool),
    isPlain chunk = true -> (String.length chunk < fuel)%nat ->
    path.matchChunkLoop fuel chunk s failed
    = Ok (if failed then None
          else if String.prefix chunk s
               then Some (drop_bytes (String.length chunk) s) else None).
Proof.
  induction chunk as [|c chunk IH]; intros fuel s failed Hplain Hfuel.
  - destruct fuel; [simpl in Hfuel; lia|]. simpl. by destruct failed, s.
  - destruct fuel as [|fuel]; [lia|]. cbn [String.length] in Hfuel.
    apply allBytes_cons in Hplain as [(_ & Hq & Hopen & Hesc)%plainByte_spec Hplain].
    cbn [path.matchChunkLoop]. rewrite Hopen, Hq, Hesc.
    cbn [mbind outcome_bind].
    destruct failed; cbn [negb andb].
    { by rewrite IH by (done || lia). }
    destruct s as [|s0 s]; cbn [String.length Nat.eqb negb].
    { by rewrite IH by (done || lia). }
    rewrite !index_0_cons. cbn [mbind outcome_bind drop_bytes].
    rewrite IH by (done || lia). cbn [String.prefix String.length drop_bytes].
    destruct (Ascii.eqb_spec c s0) as [->|Hne]; cbn [negb].
    + by destruct (ascii_dec s0 s0).
    + by destruct (ascii_dec c s0).
Qed.

Lemma prefix_whole (p s : string) :
  String.prefix p s = true ->
  (String.length (drop_bytes (String.length p) s) =? 0)%nat = String.eqb p s.
Proof.
  revert s. induction p as [|c p IH]; intros [|c' s]; cbn [String.prefix];
    simpl; try done.
  destruct (ascii_dec c c') as [->|Hne]; [|done].
  intros H. rewrite (IH _ H). by rewrite Ascii.eqb_refl.
Qed.

Lemma prefix_false_neq (p s : string) :
  String.prefix p s = false -> String.eqb p s = false.
Proof.
  intros Hpre. apply String.eqb_neq. intros ->.
  assert (String.prefix s s = true) by
    (clear; induction s as [|c s IH]; cbn [String.prefix];
     [done|by destruct (ascii_dec c c)]).
  congruence.
Qed.

(** A pattern without metacharacters matches its own text and nothing
    else. *)
Lemma Match_plain (pattern name : string) :
  isPlain pattern = true -> path.Match pattern name = Ok (String.eqb pattern name).
Proof.
  intros Hplain. unfold path.Match. cbn [path.matchLoop].
  destruct pattern as [|c p] eqn:Hp.
  { simpl. by destruct name. }
  rewrite <- Hp in *. assert (Hne : pattern <> "") by (by rewrite Hp).
  replace (0 <? String.length pattern)%nat with true by (by rewrite Hp).
  rewrite (scanChunk_plain _ Hplain Hne). cbn [andb].
  unfold path.matchChunk. rewrite matchChunkLoop_plain by (done || lia).
  cbn [mbind outcome_bind String.length Nat.ltb Nat.leb orb].
  destruct (String.prefix pattern name) eqn:Hpre.
  - rewrite orb_false_r, (prefix_whole _ _ Hpre).
    destruct (String.eqb_spec pattern name) as [->|Hneq].
    + rewrite Hp. cbn [String.length path.matchLoop]. simpl.
      by rewrite drop_bytes_all.
    + rewrite Hp. cbn [String.length path.checkRest]. done.
  - rewrite (prefix_false_neq _ _ Hpre). rewrite Hp. done.
Qed.

(** For a name without glob metacharacters, [Present] tells whether an
    output bears that very name, and [Connected] whether a connected output
    does. *)
Theorem Outputs_queries_plain (os : Outputs) (name : string) :
  isPlain name = true ->
  Outputs_Present os name = Ok (bool_decide (name ∈ Output_Name <$> os))
  /\ Outputs_Connected os name
     = Ok (bool_decide (Exists (fun o => Output_Name o = name
                                          /\ Output_Connected o = true) os)).
Proof.
  intros Hplain. split.
  - induction os as [|o os IH]; cbn [Outputs_Present]; [done|].
    rewrite (Match_plain _ _ Hplain).
    destruct (String.eqb_spec name (Output_Name o)) as [Heq|Hne].
    + rewrite bool_decide_eq_true_2; [done|]. rewrite fmap_cons, Heq. left.
    + rewrite IH. f_equal. apply bool_decide_ext.
      rewrite fmap_cons, elem_of_cons. tauto.
  - induction os as [|o os IH]; cbn [Outputs_Connected].
    { rewrite bool_decide_eq_false_2; [done|]. by intros H%Exists_nil. }
    rewrite (Match_plain _ _ Hplain).
    destruct (String.eqb_spec name (Output_Name o)) as [Heq|Hne];
      [destruct (Output_Connected o) eqn:Hc|]; cbn [andb].
    + rewrite bool_decide_eq_true_2; [done|]. by left.
    + rewrite IH. f_equal. apply bool_decide_ext.
      rewrite Exists_cons, Hc. intuition discriminate.
    + rewrite IH. f_equal. apply bool_decide_ext.
      rewrite Exists_cons. intuition congruence.
Qed.

Lemma Outputs_queries_plain_witness :
  isPlain "VGA1" = true
  /\ Outputs_Present query_outputs "VGA1"
     = Ok (bool_decide ("VGA1" ∈ Output_Name <$> query_outputs))
  /\ Outputs_Connected query_outputs "VGA1"
     = Ok (bool_decide (Exists (fun o => Output_Name o = "VGA1"
                                          /\ Output_Connected o = true)
                               query_outputs)).
Proof.
  split; [reflexivity|].
  exact (Outputs_queries_plain query_outputs "VGA1" eq_refl).
Defined.

(** ** Lines of the report *)

Lemma Split_head_no_sep (s : string) (sep : ascii) :
  exists piece pieces,
    strings.Split s sep = piece :: pieces /\ strings.IndexByte piece sep = None.
Proof.
  induction s as [|a s (piece & pieces & Heq & Hno)]; cbn [strings.Split].
  - by exists "", [].
  - destruct (Ascii.eqb a sep) eqn:Ha.
    + by exists "", (strings.Split s sep).
    + rewrite Heq. exists (String a piece), pieces. split; [done|].
      cbn [strings.IndexByte]. by rewrite Ha, Hno.
Qed.

Lemma parseOutputLine_shape (line : string) (o : Output) :
  parseOutputLine line = Ok o ->
  Output_Name o <> ""
  /\ (Output_Connected o = true -> Output_Modes o = [])
  /\ (length (Output_Modes o) <= 1)%nat
  /\ Forall (fun m => Mode_Active m = true /\ Mode_Default m = false
                      /\ strings.IndexByte (Mode_Name m) "+" = None)
            (Output_Modes o).
Proof.
  unfold parseOutputLine.
  destruct (bufio.Scan (bufio.NewScanner bufio.ScanWords line))
    as [[name ws]|] eqn:Hname; [|done].
  apply Scan_words_nonempty in Hname as [Hne Hws]; [|done].
  destruct (bufio.Scan ws) as [[st ws']|]; [|done].
  destruct (String.eqb st "connected").
  { cbn [mbind outcome_bind]. intros [= <-]. simpl.
    split_and!; [done|done|lia|constructor]. }
  destruct (String.eqb st "disconnected"); [|done].
  cbn [mbind outcome_bind].
  destruct (bufio.Scan ws') as [[text ws'']|].
  2: { intros [= <-]. simpl. split_and!; [done|done|lia|constructor]. }
  destruct (negb (length (strings.Split text "+") =? 3)%nat).
  { intros [= <-]. simpl. split_and!; [done|done|lia|constructor]. }
  intros [= <-]. simpl. split_and!; [done|done|lia|].
  destruct (Split_head_no_sep text "+") as (piece & pieces & -> & Hno).
  by repeat constructor.
Qed.

(** An output that [parseOutputLine] returns has a name; it has no mode when
    it is connected, and otherwise at most one mode, which is active, is
    not the default, and has a name without a plus sign. *)
Theorem parseOutputLine_output (line : string) (o : Output) :
  parseOutputLine line = Ok o ->
  Output_Name o <> ""
  /\ (Output_Connected o = true -> Output_Modes o = [])
  /\ (length (Output_Modes o) <= 1)%nat
  /\ Forall (fun m => Mode_Active m = true /\ Mode_Default m = false
                      /\ strings.IndexByte (Mode_Name m) "+" = None)
            (Output_Modes o).
Proof. exact (parseOutputLine_shape line o). Qed.

Lemma parseOutputLine_output_witness :
  parseOutputLine "VGA1 disconnected 1024x768+0+0 (normal)"
  = Ok (mkOutput "VGA1" [mkMode "1024x768" false true] false)
  /\ Output_Name (mkOutput "VGA1" [mkMode "1024x768" false true] false) <> "".
Proof.
  assert (H : parseOutputLine "VGA1 disconnected 1024x768+0+0 (normal)"
              = Ok (mkOutput "VGA1" [mkMode "1024x768" false true] false))
    by (vm_compute; reflexivity).
  split; [exact H|]. exact (proj1 (parseOutputLine_output _ _ H)).
Defined.

(** [parseOutputLine] returns on every line. *)
Lemma parseOutputLine_returns (line : string) : returns (parseOutputLine line).
Proof.
  unfold parseOutputLine. repeat case_match; simpl; try done.
  all: repeat (match goal with
               | H : context [if ?b then _ else _] |- _ => destruct b
               end); simpl in *; congruence || done.
Qed.

(** ** The report as a whole *)

Lemma parseModeLine_panic (line : string) (x : panic) :
  parseModeLine line = Panic x ->
  x = IndexOutOfRange (-1) 1
  /\ strings.HasPrefix line "  " = true
  /\ exists name ws rate ws',
      bufio.Scan (words line) = Some (name, ws)
      /\ bufio.Scan ws = Some (rate, ws')
      /\ String.length rate = 1%nat.
Proof.
  unfold parseModeLine, words.
  destruct (strings.HasPrefix line "  "); [|done]. cbn [negb].
  destruct (bufio.Scan (bufio.NewScanner bufio.ScanWords line))
    as [[name ws]|] eqn:Hname; [|done].
  apply Scan_words_nonempty in Hname as Hws; [|done]. destruct Hws as [_ Hws].
  destruct (bufio.Scan ws) as [[rate ws']|] eqn:Hrate; [|done].
  apply Scan_words_nonempty in Hrate as Hne; [|done]. destruct Hne as [Hne _].
  destruct rate as [|c1 [|c2 rate]]; [done| |].
  - simpl. intros [= <-]. split; [done|]. split; [done|].
    by exists name, ws, (String c1 ""), ws'.
  - destruct (index_in_range (String c1 (String c2 rate))
                (len (String c1 (String c2 rate)) - 1)%Z) as [a ->];
      [unfold len; simpl; lia|].
    destruct (index_in_range (String c1 (String c2 rate))
                (len (String c1 (String c2 rate)) - 2)%Z) as [b ->];
      [unfold len; simpl; lia|].
    done.
Qed.

Lemma lineLoop_panic (line : string) (p : Parser) (x : panic) :
  lineLoop 2 line p = Panic x -> parseModeLine line = Panic x.
Proof.
  cbn [lineLoop]. unfold dispatch at 1.
  pose proof (parseOutputLine_returns line) as Hout.
  destruct (state p).
  - by destruct (strings.HasPrefix line "Screen ").
  - by destruct (parseOutputLine line).
  - destruct (parseModeLine line) as [m|[]|y]; try done; [|by intros [= <-]].
    unfold dispatch. cbn [state].
    by destruct (parseOutputLine line).
Qed.

Lemma linesLoop_panic (lines : list string) :
  forall (p : Parser) (x : panic),
    linesLoop lines p = Panic x ->
    exists line, line ∈ lines /\ parseModeLine line = Panic x.
Proof.
  induction lines as [|line lines IH]; intros p x; cbn [linesLoop]; [done|].
  destruct (lineLoop 2 line p) as [p'|e|y] eqn:Hline; cbn [mbind outcome_bind].
  - intros (l & Hl & Hp)%IH. exists l. split; [by right|done].
  - done.
  - intros [= <-]. exists line. split; [left|by apply lineLoop_panic in Hline].
Qed.

(** [RandrParse] aborts in one way only: by the index -1 that
    [parseModeLine] takes on a line that starts with two spaces and whose
    second word is one byte long. *)
Theorem RandrParse_abort (rd : string) (x : panic) :
  RandrParse rd = Panic x ->
  x = IndexOutOfRange (-1) 1
  /\ exists line name ws rate ws',
      line ∈ bufio.tokens (bufio.NewScanner bufio.ScanLines rd)
      /\ strings.HasPrefix line "  " = true
      /\ bufio.Scan (words line) = Some (name, ws)
      /\ bufio.Scan ws = Some (rate, ws')
      /\ String.length rate = 1%nat.
Proof.
  unfold RandrParse.
  destruct (linesLoop _ _) as [p|e|y] eqn:Hloop; cbn [mbind outcome_bind].
  - by destruct (negb _).
  - done.
  - intros [= <-]. apply linesLoop_panic in Hloop as (line & Hin & Hp).
    apply parseModeLine_panic in Hp as (-> & Hpre & name & ws & rate & ws' & H).
    split; [done|]. by exists line, name, ws, rate, ws'.
Qed.

Lemma RandrParse_abort_witness :
  RandrParse short_rate_report = Panic (IndexOutOfRange (-1) 1)
  /\ exists line name ws rate ws',
      line ∈ bufio.tokens (bufio.NewScanner bufio.ScanLines short_rate_report)
      /\ strings.HasPrefix line "  " = true
      /\ bufio.Scan (words line) = Some (name, ws)
      /\ bufio.Scan ws = Some (rate, ws')
      /\ String.length rate = 1%nat.
Proof.
  assert (H : RandrParse short_rate_report = Panic (IndexOutOfRange (-1) 1))
    by (vm_compute; reflexivity).
  split; [exact H|]. exact (proj2 (RandrParse_abort _ _ H)).
Defined.

Lemma lineLoop_namesKept (line : string) (p p' : Parser) :
  namesKept p -> lineLoop 2 line p = Ok p' -> namesKept p'.
Proof.
  intros [Houts Hcur]. cbn [lineLoop]. unfold dispatch at 1.
  destruct (state p) eqn:Hstate.
  - destruct (strings.HasPrefix line "Screen "); [|done].
    intros [= <-]. by split.
  - destruct (parseOutputLine line) as [o|e|x] eqn:Hout; [|done..].
    intros [= <-]. split; [done|]. intros _. cbn [output].
    by apply parseOutputLine_shape in Hout as [? _].
  - destruct (parseModeLine line) as [m|[]|x]; try done.
    + intros [= <-]. split; [done|]. intros _. cbn [output Output_Name]. auto.
    + unfold dispatch. cbn [state outputs].
      destruct (parseOutputLine line) as [o|e|x] eqn:Hout; [|done..].
      intros [= <-]. split.
      * cbn [outputs]. apply Forall_app. split; [done|].
        constructor; [auto|constructor].
      * intros _. cbn [output].
        by apply parseOutputLine_shape in Hout as [? _].
Qed.

Lemma linesLoop_namesKept (lines : list string) :
  forall p p', namesKept p -> linesLoop lines p = Ok p' -> namesKept p'.
Proof.
  induction lines as [|line lines IH]; intros p p' Hkept; cbn [linesLoop].
  - by intros [= <-].
  - destruct (lineLoop 2 line p) as [p1|e|x] eqn:Hline; [|done..].
    cbn [mbind outcome_bind]. apply IH. by eapply lineLoop_namesKept.
Qed.

(** Every output that [RandrParse] returns has a name. *)
Theorem RandrParse_names (rd : string) (os : Outputs) :
  RandrParse rd = Ok os -> Forall (fun o => Output_Name o <> "") os.
Proof.
  unfold RandrParse.
  destruct (linesLoop _ _) as [p|e|x] eqn:Hloop; [|done..].
  cbn [mbind outcome_bind].
  apply linesLoop_namesKept in Hloop as [Houts _]; [|by split].
  destruct (String.eqb_spec (Output_Name (output p)) "") as [Heq|Hne];
    cbn [negb]; intros [= <-]; [done|].
  apply Forall_app. split; [done|]. by repeat constructor.
Qed.

Lemma RandrParse_names_witness :
  RandrParse example_report_star_plus
  = Ok [mkOutput "HDMI1" [mkMode "1920x1080" true true] true;
        mkOutput "VGA1" [] false]
  /\ Forall (fun o => Output_Name o <> "")
            [mkOutput "HDMI1" [mkMode "1920x1080" true true] true;
             mkOutput "VGA1" [] false].
Proof.
  assert (H : RandrParse example_report_star_plus
              = Ok [mkOutput "HDMI1" [mkMode "1920x1080" true true] true;
                    mkOutput "VGA1" [] false])
    by (vm_compute; reflexivity).
  split; [exact H|]. exact (RandrParse_names _ _ H).
Defined.

(** *** Blocks of lines *)

(** A line that does not start with two spaces is no mode line. *)
Lemma parseModeLine_not_indented (line : string) :
  strings.HasPrefix line "  " = false -> parseModeLine line = Err errNotModeLine.
Proof. unfold parseModeLine. by intros ->. Qed.

Lemma linesLoop_app (lines1 lines2 : list string) (p : Parser) :
  linesLoop (lines1 ++ lines2) p
  = (p' ← linesLoop lines1 p; linesLoop lines2 p').
Proof.
  revert p. induction lines1 as [|l lines1 IH]; intros p; [done|].
  cbn [app linesLoop]. destruct (lineLoop 2 l p); cbn [mbind outcome_bind]; [|done..].
  apply IH.
Qed.

(** Mode lines add their modes, in their order, to the output in
    progress. *)
Lemma linesLoop_modes (lines : list string) (ms : Modes) :
  Forall2 (fun l m => parseModeLine l = Ok m) lines ms ->
  forall (o : Output) (outs : Outputs),
    linesLoop lines (mkParser StateMode o outs)
    = Ok (mkParser StateMode (withModes o ms) outs).
Proof.
  induction 1 as [|l m lines ms Hl _ IH]; intros o outs.
  - cbn [linesLoop]. unfold withModes. rewrite app_nil_r. by destruct o.
  - cbn [linesLoop lineLoop]. unfold dispatch at 1. cbn [state]. rewrite Hl.
    cbn [mbind outcome_bind output outputs]. rewrite IH. unfold withModes.
    cbn [Output_Name Output_Modes Output_Connected].
    by rewrite <- app_assoc.
Qed.

Lemma linesLoop_blocks (blocks : list (string * list string)) (outs : Outputs) :
  Forall2 (fun b o =>
             strings.HasPrefix b.1 "  " = false
             /\ exists o0 ms,
                 parseOutputLine b.1 = Ok o0
                 /\ Forall2 (fun l m => parseModeLine l = Ok m) b.2 ms
                 /\ o = withModes o0 ms) blocks outs ->
  forall p : Parser,
    (state p = StateOutput /\ Output_Name (output p) = "")
    \/ (state p = StateMode /\ Output_Name (output p) <> "") ->
    exists p',
      linesLoop (concat ((fun b => b.1 :: b.2) <$> blocks)) p = Ok p'
      /\ finish p' = (finish p ++ outs)%list.
Proof.
  induction 1 as [|[h mls] o blocks outs (Hh & o0 & ms & Ho0 & Hms & ->) _ IH];
    intros p Hp.
  - exists p. split; [done|]. by rewrite app_nil_r.
  - cbn [fmap list_fmap concat fst snd] in *.
    rewrite <- app_comm_cons. cbn [linesLoop].
    assert (Hstep : lineLoop 2 h p = Ok (mkParser StateMode o0 (finish p))).
    { cbn [lineLoop]. unfold dispatch at 1. unfold finish.
      destruct Hp as [[-> Hname]|[-> Hname]].
      - rewrite Ho0, Hname. done.
      - rewrite (parseModeLine_not_indented _ Hh). unfold dispatch.
        cbn [state outputs]. rewrite Ho0.
        by apply String.eqb_neq in Hname as ->. }
    rewrite Hstep. cbn [mbind outcome_bind]. rewrite linesLoop_app.
    rewrite (linesLoop_modes _ _ Hms). cbn [mbind outcome_bind].
    pose proof (parseOutputLine_shape _ _ Ho0) as [Hname0 _].
    destruct (IH (mkParser StateMode (withModes o0 ms) (finish p)))
      as (p' & Hloop & Hfin); [right; by split|].
    exists p'. split; [exact Hloop|]. rewrite Hfin. unfold finish at 1.
    cbn [output outputs withModes Output_Name].
    apply String.eqb_neq in Hname0 as ->. cbn [negb].
    by rewrite <- app_assoc.
Qed.

(** A report made of a screen line and, for every output, one line that
    does not start with two spaces and [parseOutputLine] accepts, followed
    by lines that [parseModeLine] accepts, parses to these outputs in the
    order of the report, each with the modes of its lines in their order
    after the mode of its own line. *)
Theorem RandrParse_blocks (rd screen : string)
        (blocks : list (string * list string)) (outs : Outputs) :
  bufio.tokens (bufio.NewScanner bufio.ScanLines rd) = reportLines screen blocks ->
  strings.HasPrefix screen "Screen " = true ->
  Forall2 (fun b o =>
             strings.HasPrefix b.1 "  " = false
             /\ exists o0 ms,
                 parseOutputLine b.1 = Ok o0
                 /\ Forall2 (fun l m => parseModeLine l = Ok m) b.2 ms
                 /\ o = withModes o0 ms) blocks outs ->
  RandrParse rd = Ok outs.
Proof.
  intros Htokens Hscreen Hblocks. unfold RandrParse. rewrite Htokens.
  unfold reportLines. cbn [linesLoop lineLoop]. unfold dispatch at 1.
  cbn [state]. rewrite Hscreen. cbn [mbind outcome_bind output outputs].
  destruct (linesLoop_blocks _ _ Hblocks (mkParser StateOutput Output_zero []))
    as (p' & -> & Hfin); [left; by split|].
  cbn [mbind outcome_bind]. unfold finish in Hfin at 1.
  destruct (negb (String.eqb (Output_Name (output p')) "")); by rewrite Hfin.
Qed.

Lemma RandrParse_blocks_witness :
  bufio.tokens (bufio.NewScanner bufio.ScanLines example_report_star_plus)
  = reportLines "Screen 0" example_blocks
  /\ strings.HasPrefix "Screen 0" "Screen " = true
  /\ RandrParse example_report_star_plus
     = Ok [mkOutput "HDMI1" [mkMode "1920x1080" true true] true;
           mkOutput "VGA1" [] false].
Proof.
  split; [vm_compute; reflexivity|]. split; [reflexivity|].
  apply (RandrParse_blocks example_report_star_plus "Screen 0" example_blocks);
    [vm_compute; reflexivity|reflexivity|].
  repeat constructor.
  - simpl. exists (mkOutput "HDMI1" [] true), [mkMode "1920x1080" true true].
    split; [vm_compute; reflexivity|]. split; [|reflexivity].
    repeat constructor.
  - simpl. exists (mkOutput "VGA1" [] false), [].
    split; [vm_compute; reflexivity|]. split; [constructor|reflexivity].
Defined.

(** ** Words of a line *)

#[local] Arguments String.append !_ _ / : simpl nomatch.

Lemma length_append (a b : string) :
  String.length (a ++ b) = (String.length a + String.length b)%nat.
Proof. induction a as [|c a IH]; simpl; [done|by rewrite IH]. Qed.

Lemma append_snoc (a : string) (c : ascii) (b : string) :
  (a ++ String c "") ++ b = a ++ String c b.
Proof. induction a as [|d a IH]; cbn [String.append]; [done|by rewrite IH]. Qed.

Lemma append_assoc (a b c : string) : (a ++ b) ++ c = a ++ (b ++ c).
Proof. induction a as [|d a IH]; cbn [String.append]; [done|by rewrite IH]. Qed.

Lemma drop_bytes_app (pre s : string) :
  drop_bytes (String.length pre) (pre ++ s) = s.
Proof. induction pre as [|c pre IH]; simpl; [done|exact IH]. Qed.

Lemma substring_app (pre w tail : string) :
  String.substring (String.length pre) (String.length w) (pre ++ w ++ tail) = w.
Proof.
  induction pre as [|c pre IH]; simpl; [|exact IH].
  induction w as [|d w IHw]; simpl; [by destruct tail|by rewrite IHw].
Qed.

Lemma DecodeRune_ascii (c : ascii) (s : string) :
  (byte_val c <? 0x80)%Z = true ->
  utf8.DecodeRune (String c s) = (byte_val c, 1%nat).
Proof.
  intros Hc. unfold utf8.DecodeRune, utf8.first. rewrite Hc. reflexivity.
Qed.

Lemma blankByte_decode (c : ascii) (s : string) :
  blankByte c = true ->
  exists r, utf8.DecodeRune (String c s) = (r, 1%nat) /\ bufio.isSpace r = true.
Proof.
  intros [Hc Hsp]%andb_prop. exists (byte_val c).
  by rewrite DecodeRune_ascii.
Qed.

Lemma wordByte_decode (c : ascii) (s : string) :
  wordByte c = true ->
  exists r, utf8.DecodeRune (String c s) = (r, 1%nat) /\ bufio.isSpace r = false.
Proof.
  intros [Hc Hsp%negb_true_iff]%andb_prop. exists (byte_val c).
  by rewrite DecodeRune_ascii.
Qed.

(** The first loop of [ScanWords] runs over the white space in front of a
    word. *)
Lemma skipLeadingSpaces_blanks (sp : string) :
  forall (pre tail : string) (fuel : nat),
    isBlanks sp = true ->
    match tail with "" => True | String c _ => wordByte c = true end ->
    (String.length sp <= fuel)%nat ->
    bufio.skipLeadingSpaces fuel (pre ++ sp ++ tail) (String.length pre)
    = (String.length pre + String.length sp)%nat.
Proof.
  induction sp as [|b sp IH]; intros pre tail fuel Hsp Htail Hfuel.
  - cbn [String.append String.length]. rewrite Nat.add_0_r.
    destruct fuel as [|fuel]; [done|]. cbn [bufio.skipLeadingSpaces].
    rewrite length_append, drop_bytes_app.
    destruct tail as [|c tail].
    + replace (_ <? _)%nat with false; [done|].
      symmetry. apply Nat.ltb_ge. simpl. lia.
    + replace (_ <? _)%nat with true
        by (symmetry; apply Nat.ltb_lt; simpl; lia).
      destruct (wordByte_decode c tail Htail) as (r & -> & ->). done.
  - apply allBytes_cons in Hsp as [Hb Hsp].
    destruct fuel as [|fuel]; [simpl in Hfuel; lia|].
    cbn [bufio.skipLeadingSpaces]. rewrite length_append, drop_bytes_app.
    replace (_ <? _)%nat with true
      by (symmetry; apply Nat.ltb_lt; simpl; lia).
    cbn [String.append].
    destruct (blankByte_decode b (sp ++ tail) Hb) as (r & -> & ->).
    rewrite <- (append_snoc pre b (sp ++ tail)).
    replace (String.length pre + 1)%nat
      with (String.length (pre ++ String b "")) by (rewrite length_append; done).
    rewrite IH; [|done|done|simpl in Hfuel; lia].
    rewrite length_append. simpl. lia.
Qed.

(** The second loop of [ScanWords] runs to the white space after the word,
    or to the end of the text. *)
Lemma scanUntilSpace_word (w : string) :
  forall (pre : string) (c : ascii) (tail : string) (fuel : nat),
    allBytes wordByte w = true -> blankByte c = true ->
    (String.length w < fuel)%nat ->
    bufio.scanUntilSpace fuel (pre ++ w ++ String c tail) (String.length pre)
    = Some ((String.length pre + String.length w)%nat, 1%nat).
Proof.
  induction w as [|b w IH]; intros pre c tail fuel Hw Hc Hfuel.
  - cbn [String.append String.length]. rewrite Nat.add_0_r.
    destruct fuel as [|fuel]; [lia|]. cbn [bufio.scanUntilSpace].
    rewrite length_append, drop_bytes_app.
    replace (_ <? _)%nat with true
      by (symmetry; apply Nat.ltb_lt; simpl; lia).
    destruct (blankByte_decode c tail Hc) as (r & -> & ->). done.
  - apply allBytes_cons in Hw as [Hb Hw].
    destruct fuel as [|fuel]; [lia|].
    cbn [bufio.scanUntilSpace]. rewrite length_append, drop_bytes_app.
    replace (_ <? _)%nat with true
      by (symmetry; apply Nat.ltb_lt; simpl; lia).
    cbn [String.append].
    destruct (wordByte_decode b (w ++ String c tail) Hb) as (r & -> & ->).
    rewrite <- (append_snoc pre b (w ++ String c tail)).
    replace (String.length pre + 1)%nat
      with (String.length (pre ++ String b "")) by (rewrite length_append; done).
    rewrite IH; [|done|done|simpl in Hfuel; lia].
    rewrite length_append. cbn [String.length]. f_equal. f_equal. lia.
Qed.

Lemma scanUntilSpace_end (w : string) :
  forall (pre : string) (fuel : nat),
    allBytes wordByte w = true ->
    bufio.scanUntilSpace fuel (pre ++ w) (String.length pre) = None.
Proof.
  induction w as [|b w IH]; intros pre fuel Hw.
  - destruct fuel as [|fuel]; [done|]. cbn [bufio.scanUntilSpace].
    rewrite length_append. cbn [String.length].
    by replace (_ <? _)%nat with false by (symmetry; apply Nat.ltb_ge; lia).
  - apply allBytes_cons in Hw as [Hb Hw].
    destruct fuel as [|fuel]; [done|].
    cbn [bufio.scanUntilSpace]. rewrite length_append, drop_bytes_app.
    replace (_ <? _)%nat with true
      by (symmetry; apply Nat.ltb_lt; simpl; lia).
    destruct (wordByte_decode b w Hb) as (r & -> & ->).
    rewrite <- (append_snoc pre b w).
    replace (String.length pre + 1)%nat
      with (String.length (pre ++ String b "")) by (rewrite length_append; done).
    apply IH. done.
Qed.

Lemma append_empty (s : string) : s ++ "" = s.
Proof. induction s as [|c s IH]; simpl; [done|by rewrite IH]. Qed.

Lemma isWord_spec (w : string) :
  isWord w = true -> w <> "" /\ allBytes wordByte w = true.
Proof.
  unfold isWord. intros [Hne%negb_true_iff Hw]%andb_prop.
  by apply String.eqb_neq in Hne.
Qed.

Lemma startsBlank_drop (tail : string) :
  startsBlank tail = true ->
  tail = "" \/ exists c, blankByte c = true /\ tail = String c (drop_bytes 1 tail).
Proof. destruct tail as [|c tail]; [by left|]. right. by exists c. Qed.

(** At the end of the input [ScanWords] finds a word that stands between
    white space or the ends of the data, and advances past the byte that
    follows the word. *)
Lemma ScanWords_word (sp w tail : string) :
  isBlanks sp = true -> isWord w = true -> startsBlank tail = true ->
  exists advance,
    bufio.ScanWords (sp ++ w ++ tail) true = (advance, Some w)
    /\ (advance <= String.length (sp ++ w ++ tail))%nat
    /\ drop_bytes advance (sp ++ w ++ tail) = drop_bytes 1 tail.
Proof.
  intros Hsp [Hne Hw]%isWord_spec Htail.
  unfold bufio.ScanWords.
  pose proof (skipLeadingSpaces_blanks sp "" (w ++ tail)
                (String.length (sp ++ w ++ tail)) Hsp) as Hskip.
  cbn [String.append String.length Nat.add] in Hskip. rewrite Hskip; clear Hskip.
  2: { destruct w as [|b w]; [done|]. by apply allBytes_cons in Hw as [? _]. }
  2: { rewrite length_append. lia. }
  assert (Hwpos : (0 < String.length w)%nat) by (destruct w; simpl; done || lia).
  apply startsBlank_drop in Htail as [->|(c & Hc & Htail)].
  - rewrite append_empty, (scanUntilSpace_end w sp) by done.
    replace (_ <? _)%nat with true
      by (symmetry; apply Nat.ltb_lt; rewrite !length_append; simpl; lia).
    cbn [andb]. eexists. split; [by rewrite drop_bytes_app|].
    split; [lia|]. by rewrite drop_bytes_all.
  - remember (drop_bytes 1 tail) as t eqn:Ht. clear Ht. subst tail.
    rewrite (scanUntilSpace_word w sp c) by
      (done || (rewrite !length_append; simpl; lia)).
    replace (String.length sp + String.length w - String.length sp)%nat
      with (String.length w) by lia.
    rewrite substring_app. eexists. split; [done|].
    split; [rewrite !length_append; simpl; lia|].
    replace (String.length sp + String.length w + 1)%nat
      with (String.length (sp ++ w ++ String c "")) by (rewrite !length_append; simpl; lia).
    replace (sp ++ w ++ String c t) with ((sp ++ w ++ String c "") ++ t)
      by (rewrite !append_assoc; done).
    apply drop_bytes_app.
Qed.

(** On a text that the buffer holds as a whole, [Scan] returns a word that
    stands between white space or the ends of the text, and goes on after
    the byte that follows the word. *)
Lemma Scan_word (sp w tail : string) :
  (len (sp ++ w ++ tail) < bufio.MaxScanTokenSize)%Z ->
  isBlanks sp = true -> isWord w = true -> startsBlank tail = true ->
  bufio.Scan (words (sp ++ w ++ tail)) = Some (w, words (drop_bytes 1 tail)).
Proof.
  intros Hshort Hsp Hw Htail.
  destruct (ScanWords_word sp w tail Hsp Hw Htail) as (advance & Hscan & Hadv & Hdrop).
  unfold bufio.Scan, words. cbn [bufio.split bufio.unread bufio.scanLoop].
  rewrite (buffered_short _ Hshort), Hscan.
  apply Nat.ltb_ge in Hadv. by rewrite Hadv, Hdrop.
Qed.

(** [Scan] returns false on white space alone. *)
Lemma Scan_blanks (sp : string) :
  (len sp < bufio.MaxScanTokenSize)%Z ->
  isBlanks sp = true -> bufio.Scan (words sp) = None.
Proof.
  intros Hshort Hsp. unfold bufio.Scan, words.
  cbn [bufio.split bufio.unread bufio.scanLoop].
  rewrite (buffered_short _ Hshort). unfold bufio.ScanWords.
  pose proof (skipLeadingSpaces_blanks sp "" "" (String.length sp) Hsp I) as Hskip.
  cbn [String.append String.length Nat.add] in Hskip.
  rewrite append_empty in Hskip. rewrite Hskip by lia.
  pose proof (scanUntilSpace_end "" sp (String.length sp) eq_refl) as Hscan.
  rewrite append_empty in Hscan. rewrite Hscan.
  replace (_ <? _)%nat with false by (symmetry; apply Nat.ltb_ge; lia).
  cbn [andb]. by rewrite Nat.ltb_irrefl.
Qed.

Lemma len_append (a b : string) : len (a ++ b) = (len a + len b)%Z.
Proof. unfold len. rewrite length_append. lia. Qed.

Lemma index_get (s : string) (n : nat) (c : ascii) :
  String.get n s = Some c -> index s (Z.of_nat n) = Ok c.
Proof.
  intros Hget. unfold index, len.
  assert (n < String.length s)%nat.
  { revert n Hget. induction s as [|a s IH]; intros [|n]; simpl; try done; [lia|].
    intros H%IH. lia. }
  replace ((0 <=? Z.of_nat n)%Z && (Z.of_nat n <? Z.of_nat (String.length s))%Z)
    with true
    by (symmetry; apply andb_true_intro; split; [apply Z.leb_le|apply Z.ltb_lt]; lia).
  by rewrite Nat2Z.id, Hget.
Qed.

Lemma prefix_empty (s : string) : String.prefix "" s = true.
Proof. by destruct s. Qed.

Lemma HasPrefix_app (s x prefix : string) :
  strings.HasPrefix s prefix = true -> strings.HasPrefix (s ++ x) prefix = true.
Proof.
  unfold strings.HasPrefix. revert s.
  induction prefix as [|c p IH]; intros s; [intros _; apply prefix_empty|].
  destruct s as [|a s]; cbn [String.append String.prefix]; [done|].
  destruct (ascii_dec c a); [apply IH|done].
Qed.

(** On a line shorter than the buffer of a scanner, made of white space
    that starts with two spaces, a name, white space, a rate of two bytes
    or more and possibly more words, [parseModeLine] returns the mode of
    that name; the mode is the default
    when the rate ends in a plus sign or the next word is a plus sign, and
    it is active when the byte before the last of the rate is a star. *)
Theorem parseModeLine_words (sp1 name sp2 rate tail : string) :
  (len (sp1 ++ name ++ sp2 ++ rate ++ tail) < bufio.MaxScanTokenSize)%Z ->
  strings.HasPrefix sp1 "  " = true ->
  isBlanks sp1 = true -> isWord name = true ->
  isBlanks sp2 = true -> sp2 <> "" ->
  isWord rate = true -> (2 <= String.length rate)%nat ->
  startsBlank tail = true ->
  parseModeLine (sp1 ++ name ++ sp2 ++ rate ++ tail)
  = Ok (mkMode name
               (bool_decide (lastByte rate = Some "+"%char)
                || bool_decide (nextWord tail = Some "+"))
               (bool_decide (byteBeforeLast rate = Some "*"%char))).
Proof.
  intros Hshort Hpre Hsp1 Hname Hsp2 Hne2 Hrate Hlen Htail.
  unfold parseModeLine.
  assert (Hline : strings.HasPrefix (sp1 ++ name ++ sp2 ++ rate ++ tail) "  " = true).
  { by apply HasPrefix_app. }
  rewrite Hline. cbn [negb].
  destruct sp2 as [|b sp2]; [done|]. apply allBytes_cons in Hsp2 as [Hb Hsp2].
  fold (words (sp1 ++ name ++ String b sp2 ++ rate ++ tail)).
  rewrite (Scan_word sp1 name (String b sp2 ++ rate ++ tail)) by done.
  cbn [String.append drop_bytes].
  rewrite (Scan_word sp2 rate tail) by
    (done || (rewrite !len_append in *; unfold len in *; simpl in *; lia)).
  destruct (get_in_range rate (String.length rate - 1)) as [c1 H1]; [lia|].
  destruct (get_in_range rate (String.length rate - 2)) as [c2 H2]; [lia|].
  replace (len rate - 1)%Z with (Z.of_nat (String.length rate - 1))
    by (unfold len; lia).
  replace (len rate - 2)%Z with (Z.of_nat (String.length rate - 2))
    by (unfold len; lia).
  rewrite (index_get _ _ _ H1), (index_get _ _ _ H2).
  cbn [mbind outcome_bind]. unfold lastByte, byteBeforeLast, nextWord.
  rewrite H1, H2. f_equal. f_equal.
  - destruct (bufio.Scan (words (drop_bytes 1 tail))) as [[text ws]|]; simpl.
    + destruct (String.eqb_spec text "+") as [->|Hne].
      * rewrite (bool_decide_eq_true_2 (Some "+" = Some "+")) by done.
        by rewrite orb_true_r.
      * rewrite (bool_decide_eq_false_2 (Some text = Some "+")) by congruence.
        rewrite orb_false_r. destruct (Ascii.eqb_spec c1 "+") as [->|Hc].
        -- by rewrite bool_decide_eq_true_2.
        -- by rewrite bool_decide_eq_false_2 by congruence.
    + rewrite ?orb_false_r. destruct (Ascii.eqb_spec c1 "+") as [->|Hc].
      * by rewrite bool_decide_eq_true_2.
      * by rewrite bool_decide_eq_false_2 by congruence.
  - destruct (Ascii.eqb_spec c2 "*") as [->|Hc].
    + by rewrite bool_decide_eq_true_2.
    + by rewrite bool_decide_eq_false_2 by congruence.
Qed.

Lemma parseModeLine_words_witness :
  (len "   1280x1024     60.02*   75.02" < bufio.MaxScanTokenSize)%Z
  /\ strings.HasPrefix "   " "  " = true
  /\ isBlanks "   " = true /\ isWord "1280x1024" = true
  /\ isBlanks "     " = true /\ "     " <> ""
  /\ isWord "60.02*" = true /\ (2 <= String.length "60.02*")%nat
  /\ startsBlank "   75.02" = true
  /\ parseModeLine "   1280x1024     60.02*   75.02"
     = Ok (mkMode "1280x1024" false false).
Proof.
  do 5 (split; [reflexivity|]). split; [discriminate|].
  split; [reflexivity|]. split; [simpl; lia|]. split; [reflexivity|].
  exact (parseModeLine_words "   " "1280x1024" "     " "60.02*" "   75.02"
           eq_refl eq_refl eq_refl eq_refl eq_refl ltac:(discriminate) eq_refl
           ltac:(simpl; lia) eq_refl).
Defined.

(** On a line shorter than the buffer of a scanner, made of a name, white
    space, a state and possibly more words, [parseOutputLine] returns the
    output of that name: connected and
    without modes for the state "connected"; not connected for the state
    "disconnected", with one active mode when the next word is made of
    three parts between plus signs; any other state is an error. *)
Theorem parseOutputLine_words (sp0 name sp1 st tail : string) :
  (len (sp0 ++ name ++ sp1 ++ st ++ tail) < bufio.MaxScanTokenSize)%Z ->
  isBlanks sp0 = true -> isWord name = true ->
  isBlanks sp1 = true -> sp1 <> "" ->
  isWord st = true -> startsBlank tail = true ->
  parseOutputLine (sp0 ++ name ++ sp1 ++ st ++ tail)
  = if String.eqb st "connected" then Ok (mkOutput name [] true)
    else if String.eqb st "disconnected"
         then Ok (mkOutput name (geometryModes (nextWord tail)) false)
         else Err (ErrUnknownState st).
Proof.
  intros Hshort Hsp0 Hname Hsp1 Hne1 Hst Htail. unfold parseOutputLine.
  destruct sp1 as [|b sp1]; [done|]. apply allBytes_cons in Hsp1 as [Hb Hsp1].
  fold (words (sp0 ++ name ++ String b sp1 ++ st ++ tail)).
  rewrite (Scan_word sp0 name (String b sp1 ++ st ++ tail)) by done.
  cbn [String.append drop_bytes].
  rewrite (Scan_word sp1 st tail) by
    (done || (rewrite !len_append in *; unfold len in *; simpl in *; lia)).
  destruct (String.eqb st "connected"); [done|].
  destruct (String.eqb st "disconnected"); [|done].
  cbn [mbind outcome_bind]. unfold nextWord, geometryModes.
  destruct (bufio.Scan (words (drop_bytes 1 tail))) as [[text ws]|]; simpl; [|done].
  by destruct (length (strings.Split text "+") =? 3)%nat.
Qed.

Lemma parseOutputLine_words_witness :
  (len "VGA1 disconnected 1024x768+1920+0 (normal)" < bufio.MaxScanTokenSize)%Z
  /\ isBlanks "" = true /\ isWord "VGA1" = true
  /\ isBlanks " " = true /\ " " <> ""
  /\ isWord "disconnected" = true /\ startsBlank " 1024x768+1920+0 (normal)" = true
  /\ parseOutputLine "VGA1 disconnected 1024x768+1920+0 (normal)"
     = Ok (mkOutput "VGA1" [mkMode "1024x768" false true] false).
Proof.
  do 4 (split; [reflexivity|]). split; [discriminate|].
  do 2 (split; [reflexivity|]).
  exact (parseOutputLine_words "" "VGA1" " " "disconnected"
           " 1024x768+1920+0 (normal)"
           eq_refl eq_refl eq_refl eq_refl ltac:(discriminate) eq_refl eq_refl).
Defined.

(** ** Commands *)


(** *** Enable groups *)

Lemma enableLoop_groups (outputs : list string) :
  forall (i : nat) (st : EnableState),
    enableOutputArgs (enableLoop i outputs st)
    = (enableOutputArgs st ++ enableGroups i (lastOutput st) outputs)%list.
Proof.
  induction outputs as [|o outputs IH]; intros i st; cbn [enableLoop enableGroups].
  - by rewrite app_nil_r.
  - rewrite IH. unfold enableBody at 1 2. cbn [enableOutputArgs lastOutput].
    rewrite <- app_assoc. cbn [app]. do 2 f_equal.
    unfold modeArgs, outputMode, outputName.
    destruct (String.eqb _ ""), (0 <? i)%nat; by rewrite <- ?app_assoc.
Qed.

Lemma enableGroups_lookup (outputs : list string) :
  forall (i : nat) (last : string) (k : nat) (o : string),
    outputs !! k = Some o ->
    enableGroups i last outputs !! k
    = Some (["--output"; outputName o] ++ modeArgs o
            ++ (if (0 <? i + k)%nat
                then ["--right-of";
                      match k with
                      | O => last
                      | S j => from_option outputName "" (outputs !! j)
                      end]
                else []))%list.
Proof.
  induction outputs as [|o0 outputs IH]; intros i last k o Hk; [done|].
  cbn [enableGroups]. rewrite lookup_cons. destruct k as [|k]; simpl in Hk.
  - injection Hk as ->. by rewrite Nat.add_0_r.
  - rewrite (IH (S i) (outputName o0) k o Hk).
    replace (0 <? S i + k)%nat with true by done.
    replace (0 <? i + S k)%nat with true
      by (symmetry; apply Nat.ltb_lt; lia).
    by destruct k.
Qed.

Lemma enableOutputArgs_lookup (outputs : list string) (i : nat) (o : string) :
  outputs !! i = Some o ->
  enableOutputArgs (enableOutputs outputs) !! i
  = Some (["--output"; outputName o] ++ modeArgs o
          ++ rightOfArgs (match i with O => None | S j => outputs !! j end))%list.
Proof.
  intros Hi.
  unfold enableOutputs. rewrite enableLoop_groups. cbn [enableOutputArgs app].
  rewrite (enableGroups_lookup outputs 0 _ i o Hi). do 3 f_equal.
  destruct i as [|j]; [done|]. cbn [Nat.add Nat.ltb Nat.leb].
  destruct (outputs !! j) as [p|] eqn:Hj; [done|].
  apply lookup_ge_None in Hj. apply lookup_lt_Some in Hi. lia.
Qed.

(** The enable groups stand one for one for the configured outputs, in
    their order: each names its output, asks for the mode behind the "@",
    or for the automatic one, and, from the second on, places the output to
    the right of the output configured just before. *)
Theorem enableOutputArgs_chain (outputs : list string) (i : nat) (o : string) :
  outputs !! i = Some o ->
  length (enableOutputArgs (enableOutputs outputs)) = length outputs
  /\ enableOutputArgs (enableOutputs outputs) !! i
     = Some (["--output"; outputName o] ++ modeArgs o
             ++ rightOfArgs (match i with O => None | S j => outputs !! j end))%list.
Proof.
  intros Hi. split; [apply enableOutputs_length|].
  by apply enableOutputArgs_lookup.
Qed.

Lemma enableOutputArgs_chain_witness :
  ["LVDS1"; "VGA1@1024x768"; "HDMI2@"] !! 1%nat = Some "VGA1@1024x768"
  /\ enableOutputArgs (enableOutputs ["LVDS1"; "VGA1@1024x768"; "HDMI2@"]) !! 1%nat
     = Some ["--output"; "VGA1"; "--mode"; "1024x768"; "--right-of"; "LVDS1"].
Proof.
  split; [reflexivity|].
  exact (proj2 (enableOutputArgs_chain ["LVDS1"; "VGA1@1024x768"; "HDMI2@"] 1
                  "VGA1@1024x768" eq_refl)).
Defined.

Lemma IndexByte_app (name rest : string) (c : ascii) :
  strings.IndexByte name c = None ->
  strings.IndexByte (name ++ String c rest) c = Some (String.length name).
Proof.
  induction name as [|a name IH]; cbn [String.append strings.IndexByte String.length].
  - by rewrite Ascii.eqb_refl.
  - destruct (Ascii.eqb a c); [done|].
    destruct (strings.IndexByte name c); [done|]. intros _. by rewrite IH.
Qed.

Lemma take_bytes_app (pre s : string) :
  take_bytes (String.length pre) (pre ++ s) = pre.
Proof.
  unfold take_bytes. induction pre as [|c pre IH]; simpl; [by destruct s|].
  by rewrite IH.
Qed.

(** The name and the mode arguments of a configured output "name@mode"
    whose name has no "@", and of a configured output without "@". *)
Lemma outputName_modeArgs (name mode : string) :
  strings.IndexByte name "@" = None ->
  outputName (name ++ "@" ++ mode) = name
  /\ modeArgs (name ++ "@" ++ mode)
     = (if String.eqb mode "" then ["--auto"] else ["--mode"; mode])
  /\ outputName name = name
  /\ modeArgs name = ["--auto"].
Proof.
  intros Hno. unfold modeArgs, outputMode, outputName, strings.SplitN2.
  cbn [String.append]. rewrite (IndexByte_app _ _ _ Hno), Hno.
  cbn [hd length Nat.ltb Nat.leb nth]. rewrite take_bytes_app.
  replace (drop_bytes (S (String.length name)) (name ++ String "@" mode)) with mode.
  - done.
  - symmetry. rewrite <- (append_snoc name "@" mode).
    replace (S (String.length name)) with (String.length (name ++ String "@" ""))
      by (rewrite length_append; simpl; lia).
    apply drop_bytes_app.
Qed.

(** The loop over the configured outputs cuts an entry "name@mode" at its
    first "@" only: for a name without "@", the entry enables that name
    with --mode and all that follows the "@", whatever it holds, or with
    --auto when nothing follows; an entry without "@" enables the name with
    --auto.  Either way the name joins the map [active]. *)
Theorem configured_output_parts (outputs : list string) (i : nat)
        (name mode : string) :
  strings.IndexByte name "@" = None ->
  (outputs !! i = Some (name ++ "@" ++ mode) ->
   enableOutputArgs (enableOutputs outputs) !! i
   = Some (["--output"; name]
           ++ (if String.eqb mode "" then ["--auto"] else ["--mode"; mode])
           ++ rightOfArgs (match i with O => None | S j => outputs !! j end))%list
   /\ name ∈ active (enableOutputs outputs))
  /\ (outputs !! i = Some name ->
      enableOutputArgs (enableOutputs outputs) !! i
      = Some (["--output"; name; "--auto"]
              ++ rightOfArgs (match i with O => None | S j => outputs !! j end))%list
      /\ name ∈ active (enableOutputs outputs)).
Proof.
  intros Hno.
  destruct (outputName_modeArgs name mode Hno) as (Hn1 & Hm1 & Hn2 & Hm2).
  split; intros Hi.
  - split.
    + by rewrite (enableOutputArgs_lookup outputs i _ Hi), Hn1, Hm1.
    + apply enableOutputs_active, list_elem_of_fmap.
      exists (name ++ "@" ++ mode). split; [done|].
      by eapply list_elem_of_lookup_2.
  - split.
    + by rewrite (enableOutputArgs_lookup outputs i _ Hi), Hn2, Hm2.
    + apply enableOutputs_active, list_elem_of_fmap.
      exists name. split; [done|]. by eapply list_elem_of_lookup_2.
Qed.

Lemma configured_output_parts_witness :
  strings.IndexByte "VGA1" "@" = None
  /\ ["LVDS1"; "VGA1@1024x768@60"] !! 1%nat = Some "VGA1@1024x768@60"
  /\ enableOutputArgs (enableOutputs ["LVDS1"; "VGA1@1024x768@60"]) !! 1%nat
     = Some ["--output"; "VGA1"; "--mode"; "1024x768@60"; "--right-of"; "LVDS1"].
Proof.
  split; [reflexivity|]. split; [reflexivity|].
  exact (proj1 (proj1 (configured_output_parts ["LVDS1"; "VGA1@1024x768@60"] 1
                         "VGA1" "1024x768@60" eq_refl) eq_refl)).
Defined.

(** *** Calls of a rule that is not atomic *)

(** The calls of a rule that is not atomic carry every disable group and
    every enable group once, in their order: each call switches at most one
    output off and then at most one on, and no call is empty. *)
Theorem split_calls_groups (R : MapRange) (rule : Rule) (current : Outputs)
        (outputs : list string) :
  Rule_Atomic rule = false ->
  configuredOutputs rule = Ok outputs ->
  let st := enableOutputs outputs in
  let en := enableOutputArgs st in
  let dis := disableOutputArgsOf R rule (disableOutputsOf (active st) current) in
  exists ds es : list (list (list string)),
    BuildCommandOutputRow R rule current
    = Ok (zip_with (fun d e => exec.Command command (concat d ++ concat e)) ds es)
    /\ length ds = length es
    /\ concat ds = dis /\ concat es = en
    /\ Forall2 (fun d e => (length d <= 1 /\ length e <= 1
                            /\ 1 <= length d + length e)%nat) ds es.
Proof.
  intros Hatomic Hcfg st en dis.
  rewrite (BuildCommandOutputRow_configured R rule current outputs Hcfg).
  cbv zeta. fold st en dis. rewrite Hatomic. clearbody dis en.
  destruct dis as [|first rest].
  - destruct (splitLoop_groups [] en) as (ds & es & Heq & H).
    exists ds, es. by rewrite Heq.
  - destruct (splitLoop_groups rest en) as (ds & es & Heq & Hlen & Hds & Hes & Hall).
    exists ([first] :: ds), ([] :: es).
    rewrite splitLoop_app, Heq. cbn [zip_with concat app length].
    rewrite !app_nil_r. split_and!; [done|by rewrite Hlen|by rewrite Hds|done|].
    constructor; [simpl; lia|done].
Qed.

Lemma split_calls_groups_witness :
  Rule_Atomic example_rule = false
  /\ configuredOutputs example_rule = Ok ["LVDS1"; "VGA1@1024x768"]
  /\ exists ds es : list (list (list string)),
      BuildCommandOutputRow range_elements example_rule example_current
      = Ok (zip_with (fun d e => exec.Command command (concat d ++ concat e)) ds es)
      /\ length ds = length es.
Proof.
  split; [reflexivity|]. split; [reflexivity|].
  destruct (split_calls_groups range_elements example_rule example_current
              ["LVDS1"; "VGA1@1024x768"] eq_refl eq_refl)
    as (ds & es & HB & Hlen & _).
  exists ds, es. split; [exact HB|exact Hlen].
Defined.

(** *** The order of map iteration *)

Lemma range_keys_small (R R' : MapRange) (m : gset string) :
  (size m <= 1)%nat -> range_keys R m = range_keys R' m.
Proof.
  intros Hsize.
  pose proof (range_keys_perm R m) as HP. pose proof (range_keys_perm R' m) as HP'.
  unfold size, set_size in Hsize. simpl in Hsize.
  destruct (elements m) as [|x [|y l]]; [| |simpl in Hsize; lia].
  - apply Permutation_nil_r in HP, HP'. congruence.
  - apply Permutation_singleton_r in HP, HP'. congruence.
Qed.

(** When the rule's DisableOrder names all outputs to switch off, or all but
    one, the calls do not depend on the order in which Go iterates over the
    map of the outputs to switch off. *)
Theorem BuildCommandOutputRow_deterministic (R R' : MapRange) (rule : Rule)
        (current : Outputs) (outputs : list string) :
  configuredOutputs rule = Ok outputs ->
  (size (disableOutputsOf (active (enableOutputs outputs)) current
         ∖ list_to_set (Rule_DisableOrder rule)) <= 1)%nat ->
  BuildCommandOutputRow R rule current = BuildCommandOutputRow R' rule current.
Proof.
  intros Hcfg Hsize.
  rewrite !(BuildCommandOutputRow_configured _ rule current outputs Hcfg).
  cbv zeta. rewrite !disableOutputArgsOf_eq.
  by rewrite (range_keys_small R R' _ Hsize).
Qed.

Lemma BuildCommandOutputRow_deterministic_witness :
  configuredOutputs ordered_rule = Ok ["LVDS1"; "VGA1@1024x768"]
  /\ BuildCommandOutputRow range_elements ordered_rule ordered_current
     = BuildCommandOutputRow range_reversed ordered_rule ordered_current.
Proof.
  split; [reflexivity|].
  apply (BuildCommandOutputRow_deterministic range_elements range_reversed
           ordered_rule ordered_current ["LVDS1"; "VGA1@1024x768"] eq_refl).
  vm_compute. lia.
Defined.

(** ** Printing a mode *)

Lemma lastByte_cons (c d : ascii) (s : string) :
  lastByte (String c (String d s)) = lastByte (String d s).
Proof.
  unfold lastByte. cbn [String.length]. rewrite !Nat.sub_succ, !Nat.sub_0_r.
  reflexivity.
Qed.

Lemma endsInMark_cons (c : ascii) (s : string) :
  endsInMark (String c s) = false -> endsInMark s = false.
Proof.
  destruct s as [|d s]; [done|]. unfold endsInMark. by rewrite lastByte_cons.
Qed.

Lemma marks_inj (n1 : string) :
  forall (n2 : string) (a1 d1 a2 d2 : bool),
    endsInMark n1 = false -> endsInMark n2 = false ->
    Mode_String (mkMode n1 d1 a1) = Mode_String (mkMode n2 d2 a2) ->
    n1 = n2 /\ a1 = a2 /\ d1 = d2.
Proof.
  unfold Mode_String. cbn [Mode_Name Mode_Active Mode_Default].
  induction n1 as [|c n1 IH]; intros n2 a1 d1 a2 d2 H1 H2 Heq.
  - destruct n2 as [|c2 [|c3 [|c4 n2]]].
    + destruct a1, d1, a2, d2; simpl in Heq; by try discriminate.
    + destruct a1, d1, a2, d2; simpl in Heq; try discriminate;
        injection Heq as <-; by vm_compute in H2.
    + destruct a1, d1, a2, d2; simpl in Heq; try discriminate;
        injection Heq as <- <-; by vm_compute in H2.
    + destruct a1, d1; simpl in Heq; discriminate.
  - destruct n2 as [|c2 n2].
    + destruct n1 as [|c3 [|c4 n1]].
      * destruct a1, d1, a2, d2; simpl in Heq; try discriminate;
          injection Heq as ->; by vm_compute in H1.
      * destruct a1, d1, a2, d2; simpl in Heq; try discriminate;
          injection Heq as -> ->; by vm_compute in H1.
      * destruct a2, d2; simpl in Heq; discriminate.
    + cbn [String.append] in Heq. injection Heq as -> Heq.
      destruct (IH n2 a1 d1 a2 d2 (endsInMark_cons _ _ H1) (endsInMark_cons _ _ H2) Heq)
        as (-> & -> & ->).
      done.
Qed.

(** [Mode.String] tells modes apart when their names do not end in "*" or
    "+": two such modes with the same text are the same mode. *)
Theorem Mode_String_inj (m1 m2 : Mode) :
  endsInMark (Mode_Name m1) = false ->
  endsInMark (Mode_Name m2) = false ->
  Mode_String m1 = Mode_String m2 ->
  m1 = m2.
Proof.
  destruct m1 as [n1 d1 a1], m2 as [n2 d2 a2]. cbn [Mode_Name]. intros H1 H2 Heq.
  by destruct (marks_inj n1 n2 a1 d1 a2 d2 H1 H2 Heq) as (-> & -> & ->).
Qed.

Lemma Mode_String_inj_witness :
  Mode_String (mkMode "1600x900" true true) = "1600x900*+"
  /\ mkMode "1600x900" true true = mkMode "1600x900" true true.
Proof.
  split; [reflexivity|].
  apply (Mode_String_inj (mkMode "1600x900" true true) (mkMode "1600x900" true true));
    reflexivity.
Defined.
